(** * vid2frame: frame selection, duplicate filtering and storage backends

    A shallow embedding of [storage.py] (the four storage classes) and of
    the per-video frame loop of [vid2frame.py], with the properties of the
    specification stated and settled against it.

    Conventions of the embedding:
    - a Python exception is a value [Raise e] of [result]; code that has
      already changed a store when it raises returns the changed store next
      to the [Raise];
    - a directory or key-value store is a [gmap] from names to contents;
    - [print] appends a [message] to an output list;
    - a video key is the stem of a file name: a plain name, which names one
      group of an HDF5 file and one sub-directory of a storage directory;
    - PIL's [Image.open], and the [imagehash] fingerprint with its distance,
      are external: they are parameters of the sections that use them. *)

From Stdlib Require Import ZArith QArith Qround Lia Ascii.
From stdpp Require Import base numbers gmap strings list sorting pretty.

#[local] Set Warnings "-clear-no-such-hyp".
#[local] Open Scope Z_scope.

(** ** Python values *)

Abbreviation bytes := (list Byte.byte).

Inductive exn : Type :=
  | FileNotFoundError      (* open() of a missing source file *)
  | FileExistsError        (* h5py.File(path, 'w-') on an existing file *)
  | NameExistsError        (* h5py: link name already exists in the group *)
  | UnboundLocalError      (* local variable read before assignment *)
  | ValueError             (* min()/max() of an empty sequence *)
  | ZeroDivisionError
  | UnidentifiedImageError (* PIL cannot open the file as an image *).

Inductive result (A : Type) : Type :=
  | Ok (a : A)
  | Raise (e : exn).
Arguments Ok {A} a.
Arguments Raise {A} e.

(** One entry of [frame_files]: the pair [(frame_id, frame_path)]. *)
Abbreviation frame_entry := (Z * string)%type.

(** A directory of files, by name: [clip_tmp_dir]. *)
Abbreviation directory := (gmap string bytes).

(** [(clip_tmp_dir / frame_path).open("rb").read()] *)
Definition read_file (clip_tmp_dir : directory) (frame_path : string) : result bytes :=
  match clip_tmp_dir !! frame_path with
  | Some data => Ok data
  | None => Raise FileNotFoundError
  end.

(** ** Frame keys: [f"{video_key}/{ith_frame:08d}"] *)

Fixpoint zeros (n : nat) : string :=
  match n with
  | O => ""
  | S n' => String "0"%char (zeros n')
  end.

(** [f"{ith_frame:08d}"]: decimal digits, padded with zeros on the left to a
    width of eight; longer numbers are printed in full. *)
Definition fmt_08d (ith_frame : nat) : string :=
  zeros (8 - String.length (pretty ith_frame)) +:+ pretty ith_frame.

Definition frame_key (video_key : string) (ith_frame : nat) : string :=
  video_key +:+ "/" +:+ fmt_08d ith_frame.

(** ** LMDBStorage *)

Module LMDB.

(** The environment: an ordered map from keys to values. *)
Abbreviation env := (gmap string bytes).

(** The body of the [with ... as txn] block of [put]: the loop over
    [enumerate(frame_files)], writing into the transaction's view. *)
Fixpoint put_loop (video_key : string) (clip_tmp_dir : directory)
    (ith_frame : nat) (frame_files : list frame_entry) (txn : env) : result env :=
  match frame_files with
  | [] => Ok txn
  | (_, frame_path) :: rest =>
      match read_file clip_tmp_dir frame_path with
      | Raise e => Raise e
      | Ok data =>
          put_loop video_key clip_tmp_dir (S ith_frame) rest
            (<[frame_key video_key ith_frame := data]> txn)
      end
  end.

(** [put]: the transaction commits when the block ends normally and is
    aborted when the block is left by an exception. *)
Definition put (db : env) (video_key : string) (clip_tmp_dir : directory)
    (frame_files : list frame_entry) : env * result unit :=
  match put_loop video_key clip_tmp_dir 0 frame_files db with
  | Ok txn => (txn, Ok tt)
  | Raise e => (db, Raise e)
  end.

(** [close]: sync and close; what is on disk is what was committed. *)
Definition close (db : env) : env := db.

End LMDB.

(** ** HDF5Storage *)

Module HDF5.

(** A file: groups by name, each holding datasets by name. *)
Abbreviation file := (gmap string (gmap string bytes)).

(** The object at path [video_key/name]. *)
Definition get (f : file) (video_key name : string) : option bytes :=
  f !! video_key ≫= λ g, g !! name.

(** [__init__]: [h5py.File(str(path), 'w-')], create and fail if the file
    exists.  The file system maps a path to the HDF5 file stored there. *)
Definition init (fs : gmap string file) (path : string) : gmap string file * result file :=
  match fs !! path with
  | Some _ => (fs, Raise FileExistsError)
  | None => (<[path := ∅]> fs, Ok ∅)
  end.

(** [self.database[key] = np.void(data)] with [key = video_key/name]:
    the group is created when missing; an existing name is an error.  The
    conversion [np.void(data)] itself is taken to succeed. *)
Definition set_item (f : file) (video_key name : string) (data : bytes) : result file :=
  let g := default ∅ (f !! video_key) in
  match g !! name with
  | Some _ => Raise NameExistsError
  | None => Ok (<[video_key := <[name := data]> g]> f)
  end.

(** [put]: every frame is written on its own, there is no transaction:
    what was written before an exception stays. *)
Fixpoint put_loop (video_key : string) (clip_tmp_dir : directory)
    (ith_frame : nat) (frame_files : list frame_entry) (f : file) : file * result unit :=
  match frame_files with
  | [] => (f, Ok tt)
  | (_, frame_path) :: rest =>
      match read_file clip_tmp_dir frame_path with
      | Raise e => (f, Raise e)
      | Ok data =>
          match set_item f video_key (fmt_08d ith_frame) data with
          | Raise e => (f, Raise e)
          | Ok f' => put_loop video_key clip_tmp_dir (S ith_frame) rest f'
          end
      end
  end.

Definition put (f : file) (video_key : string) (clip_tmp_dir : directory)
    (frame_files : list frame_entry) : file * result unit :=
  put_loop video_key clip_tmp_dir 0 frame_files f.

Definition close (f : file) : file := f.

End HDF5.

(** ** PKLStorage *)

Module PKL.

(** The storage directory: one sub-directory per video, which holds the
    pickled list of frames under [frames.pkl] once it has been dumped. *)
Abbreviation root := (gmap string (option (list bytes))).

(** [save_dir.mkdir(exist_ok=True, parents=True)] *)
Definition mkdir (r : root) (video_key : string) : root :=
  match r !! video_key with
  | Some _ => r
  | None => <[video_key := None]> r
  end.

(** The loop of [put]: read every frame and append it to [frame_data]. *)
Fixpoint read_frames (clip_tmp_dir : directory) (frame_files : list frame_entry)
    (frame_data : list bytes) : result (list bytes) :=
  match frame_files with
  | [] => Ok frame_data
  | (_, frame_path) :: rest =>
      match read_file clip_tmp_dir frame_path with
      | Raise e => Raise e
      | Ok data => read_frames clip_tmp_dir rest (frame_data ++ [data])
      end
  end.

Definition put (r : root) (video_key : string) (clip_tmp_dir : directory)
    (frame_files : list frame_entry) : root * result unit :=
  let r1 := mkdir r video_key in
  match read_frames clip_tmp_dir frame_files [] with
  | Raise e => (r1, Raise e)
  | Ok frame_data => (<[video_key := Some frame_data]> r1, Ok tt)
  end.

(** [Storage.close]: nothing to do. *)
Definition close (r : root) : root := r.

End PKL.

(** ** FileStorage *)

Module FILE.

(** The storage directory: one sub-directory per video, holding files. *)
Abbreviation root := (gmap string (gmap string bytes)).

Definition mkdir (r : root) (video_key : string) : root :=
  match r !! video_key with
  | Some _ => r
  | None => <[video_key := ∅]> r
  end.

(** ["{:08d}.jpg".format(ith_frame)] *)
Definition jpg_name (ith_frame : nat) : string := fmt_08d ith_frame +:+ ".jpg".

(** [shutil.copy(src, dst)] for every frame; an existing [dst] is
    overwritten, a missing [src] raises and the copies made so far stay. *)
Fixpoint put_loop (video_key : string) (clip_tmp_dir : directory)
    (ith_frame : nat) (frame_files : list frame_entry) (r : root) : root * result unit :=
  match frame_files with
  | [] => (r, Ok tt)
  | (_, frame_path) :: rest =>
      match read_file clip_tmp_dir frame_path with
      | Raise e => (r, Raise e)
      | Ok data =>
          let save_dir := default ∅ (r !! video_key) in
          put_loop video_key clip_tmp_dir (S ith_frame) rest
            (<[video_key := <[jpg_name ith_frame := data]> save_dir]> r)
      end
  end.

Definition put (r : root) (video_key : string) (clip_tmp_dir : directory)
    (frame_files : list frame_entry) : root * result unit :=
  put_loop video_key clip_tmp_dir 0 frame_files (mkdir r video_key).

Definition close (r : root) : root := r.

End FILE.

(** ** Output and metadata reports *)

(** The lines the program prints. *)
Inductive message : Type :=
  | ReadingFailed (what : string)      (* "reading failed for ..." *)
  | NoVideoFramesFound                 (* "No video frames found" *)
  | SeenBefore (video_key : string)    (* "video ... seen before, ignored." *)
  | FrameRateZero (vid : string)       (* "frame rate is 0, skip: ...", the key for the path *)
  | DuplicatesRemoved (video_key : string) (duplicates total_files : nat).

(** [img.size], a pair (width, height).  The dictionary [info] is keyed by
    [str(img.size)]; the embedding keys it by the pair itself. *)
Abbreviation image_size := (Z * Z)%type.
Abbreviation meta := (gmap (Z * Z) nat).

(** The local variables of an [info] scan.  [img] is [None] until the first
    successful [Image.open]: the variable is unbound. *)
Record scan : Type := mk_scan {
  info : meta;
  img : option image_size;
  printed : list message
}.

Definition scan_start : scan := mk_scan ∅ None [].

Definition print (m : message) (s : scan) : scan :=
  mk_scan (info s) (img s) (printed s ++ [m]).

(** The [try] block of every [info]:
    [img = Image.open(...); ik = str(img.size); info[ik] = info.get(ik, 0) + 1],
    and on any exception the "reading failed" line. *)
Definition tally (what : string) (opened : option image_size) (s : scan) : scan :=
  match opened with
  | Some sz => mk_scan (<[sz := S (default O (info s !! sz))]> (info s)) (Some sz) (printed s)
  | None => print (ReadingFailed what) s
  end.

(** [return info, img] *)
Definition scan_return (s : scan) : list message * result (meta * image_size) :=
  (printed s,
   match img s with
   | Some i => Ok (info s, i)
   | None => Raise UnboundLocalError
   end).

(** The total frame count of a report: the sum of its counts. *)
Definition frame_count (m : meta) : nat := map_fold (λ _ count acc, (count + acc)%nat) O m.

(** Names in ascending order, as a cursor or an HDF5 group iterates them. *)
Definition name_le {A} (a b : string * A) : Prop := String.le a.1 b.1.

#[global] Instance name_le_dec {A} : RelDecision (@name_le A).
Proof. intros a b. unfold name_le. apply _. Defined.

Definition by_name {A} (m : gmap string A) : list (string * A) :=
  merge_sort name_le (map_to_list m).

(** [fnmatch] of a name against ["*.jpg"]. *)
Fixpoint ends_with (suffix s : string) : bool :=
  if String.eqb s suffix then true
  else match s with
       | EmptyString => false
       | String _ s' => ends_with suffix s'
       end.

Section Info.

(** [Image.open] on stored bytes: the size of the image, or [None] when
    PIL raises. *)
Variable Image_open : bytes → option image_size.

(** [LMDBStorage.info]: a cursor scan from the first key to the last. *)
Definition LMDB_info (db : LMDB.env) : list message * result (meta * image_size) :=
  scan_return
    (foldl (λ s kv, tally kv.1 (Image_open kv.2) s) scan_start (by_name db)).

(** [HDF5Storage.info] *)
Definition HDF5_info (frame_db : HDF5.file) : list message * result (meta * image_size) :=
  let s0 := if decide (size frame_db = O)
            then print NoVideoFramesFound scan_start else scan_start in
  scan_return
    (foldl (λ s vid_group,
              foldl (λ s' fid_data,
                       tally (vid_group.1 +:+ "/" +:+ fid_data.1)
                             (Image_open fid_data.2) s')
                    s (by_name vid_group.2))
           s0 (by_name frame_db)).

(** [PKLStorage.info]: opening [frames.pkl] in a sub-directory that has
    none raises and ends the scan.  The sub-directories come in the order
    of [iterdir()], which is any order; the storage directory is taken to
    exist. *)
Fixpoint PKL_scan (dirs : list (string * option (list bytes))) (s : scan)
    : list message * result (meta * image_size) :=
  match dirs with
  | [] => scan_return s
  | (frame_dir, None) :: _ => (printed s, Raise FileNotFoundError)
  | (frame_dir, Some frame_data) :: rest =>
      PKL_scan rest (foldl (λ s' frame, tally frame_dir (Image_open frame) s') s frame_data)
  end.

Definition PKL_info (r : PKL.root) : list message * result (meta * image_size) :=
  PKL_scan (map_to_list r) scan_start.

(** [path.glob('**/*.jpg')]: the entries of the storage directory named
    [*.jpg] (these are directories, which [Image.open] cannot read), then
    the files named [*.jpg] of every sub-directory. *)
Definition FILE_glob (r : FILE.root) : list (string * option bytes) :=
  let dirs := map_to_list r in
  ((λ d, (d.1, None)) <$> filter (λ d, ends_with ".jpg" d.1 = true) dirs)
  ++ mjoin ((λ d, (λ f, (d.1 +:+ "/" +:+ f.1, Some f.2))
                    <$> filter (λ f, ends_with ".jpg" f.1 = true) (map_to_list d.2))
            <$> dirs).

Definition FILE_info (r : FILE.root) : list message * result (meta * image_size) :=
  scan_return
    (foldl (λ s f, tally f.1 (f.2 ≫= Image_open) s) scan_start (FILE_glob r)).

End Info.

(** ** The four storage kinds behind one interface *)

(** The keys of [STORAGE_TYPES]. *)
Inductive db_type : Type := DB_HDF5 | DB_LMDB | DB_FILE | DB_PKL.

(** A storage object with the content of its database. *)
Inductive storage : Type :=
  | HDF5Storage (database : HDF5.file)
  | LMDBStorage (database : LMDB.env)
  | FileStorage (root : FILE.root)
  | PKLStorage (root : PKL.root).

(** [STORAGE_TYPES[db_type](path)] on a path where nothing is stored yet. *)
Definition create (t : db_type) : storage :=
  match t with
  | DB_HDF5 => HDF5Storage ∅
  | DB_LMDB => LMDBStorage ∅
  | DB_FILE => FileStorage ∅
  | DB_PKL => PKLStorage ∅
  end.

Definition put (st : storage) (video_key : string) (clip_tmp_dir : directory)
    (frame_files : list frame_entry) : storage * result unit :=
  match st with
  | HDF5Storage f => prod_map HDF5Storage id (HDF5.put f video_key clip_tmp_dir frame_files)
  | LMDBStorage db => prod_map LMDBStorage id (LMDB.put db video_key clip_tmp_dir frame_files)
  | FileStorage r => prod_map FileStorage id (FILE.put r video_key clip_tmp_dir frame_files)
  | PKLStorage r => prod_map PKLStorage id (PKL.put r video_key clip_tmp_dir frame_files)
  end.

Definition close (st : storage) : storage :=
  match st with
  | HDF5Storage f => HDF5Storage (HDF5.close f)
  | LMDBStorage db => LMDBStorage (LMDB.close db)
  | FileStorage r => FileStorage (FILE.close r)
  | PKLStorage r => PKLStorage (PKL.close r)
  end.

(** [cls.info(path)], on the content found at [path]. *)
Definition storage_info (Image_open : bytes → option image_size) (st : storage)
    : list message * result (meta * image_size) :=
  match st with
  | HDF5Storage f => HDF5_info Image_open f
  | LMDBStorage db => LMDB_info Image_open db
  | FileStorage r => FILE_info Image_open r
  | PKLStorage r => PKL_info Image_open r
  end.

(** ** Command-line options ([parse_args]) *)

(** The options the frame loop reads.  The two float options are taken as
    exact rationals. *)
Record args : Type := mk_args {
  skip : Z;            (* -k *)
  num_frame : Z;       (* -n *)
  interval : Q;        (* -r *)
  no_duplicates : Q;   (* -d *)
  hash_size : Z        (* --hash_size *)
}.

Definition Qpositive (q : Q) : bool :=
  match (0 ?= q)%Q with Lt => true | _ => false end.

(** Python's [round] of a float to an integer: to the nearest, halves to
    the even neighbour. *)
Definition py_round (x : Q) : Z :=
  let f := Qfloor x in
  match ((x - inject_Z f) ?= 1 # 2)%Q with
  | Lt => f
  | Gt => f + 1
  | Eq => if Z.even f then f else f + 1
  end.

(** [diff_limit = round(similarity_threshold * (args.hash_size**2))] with
    [similarity_threshold = 1. - args.no_duplicates]. *)
Definition diff_limit (a : args) : Z :=
  py_round ((1 - no_duplicates a) * inject_Z (hash_size a ^ 2))%Q.

(** [min(ids)] and [max(ids)] *)
Definition py_min (ids : list Z) : result Z :=
  match ids with
  | [] => Raise ValueError
  | x :: rest => Ok (foldl Z.min x rest)
  end.

Definition py_max (ids : list Z) : result Z :=
  match ids with
  | [] => Raise ValueError
  | x :: rest => Ok (foldl Z.max x rest)
  end.

(** [np.linspace(start, stop, num, endpoint=True, dtype=np.int32)]: the
    points [start + i * (stop - start) / (num - 1)] for [i = 0 .. num - 1],
    the last one set to [stop], each converted to an integer by dropping its
    fraction.  A single point is [start].  The points are computed exactly
    (no float rounding) and are taken to fit 32 bits. *)
Definition linspace_int32 (start stop num : Z) : list Z :=
  let div := num - 1 in
  let delta := stop - start in
  (λ i, if decide (0 < div)
        then (if decide (i = div) then stop else start + (i * delta) `div` div)
        else start) <$> seqZ 0 num.

(** [sample_ids], when [sample = (args.num_frame > 0)]. *)
Definition sample_ids (a : args) (ids : list Z) : result (option (gset Z)) :=
  if decide (0 < num_frame a) then
    match py_min ids, py_max ids with
    | Ok lo, Ok hi => Ok (Some (list_to_set (linspace_int32 lo hi (num_frame a))))
    | Raise e, _ | _, Raise e => Raise e
    end
  else Ok None.

(** The two [continue] tests at the head of the frame loop. *)
Definition not_selected (a : args) (samples : option (gset Z)) (fid : Z) : bool :=
  match samples with
  | Some ids => bool_decide (fid ∉ ids)
  | None =>
      if decide (1 < skip a) then negb ((fid - 1) `mod` skip a =? 0) else false
  end.

(** [frame_files.sort()]: tuples compare by frame id, then by name. *)
Definition frame_le (x y : frame_entry) : Prop :=
  x.1 < y.1 ∨ (x.1 = y.1 ∧ String.le x.2 y.2).

#[global] Instance frame_le_dec : RelDecision frame_le.
Proof. intros x y. unfold frame_le. apply _. Defined.

(** The local variables of the frame loop. *)
Record frames_state (ImageHash : Type) : Type := mk_frames {
  hashes : list ImageHash;
  total_files : nat;
  duplicates : nat;
  frame_files : list frame_entry
}.
Arguments mk_frames {ImageHash}.
Arguments hashes {ImageHash}.
Arguments total_files {ImageHash}.
Arguments duplicates {ImageHash}.
Arguments frame_files {ImageHash}.

Section Frames.

(** The fingerprint engine ([imagehash]): [hash_algorithm(img, hash_size)]
    on the content of an image file, [None] when the file cannot be opened
    as an image, and the distance [hash1 - hash2]. *)
Variable ImageHash : Type.
Variable hash_algorithm : bytes → Z → option ImageHash.
Variable hash_sub : ImageHash → ImageHash → Z.

(** The [for hash2 in hashes] loop of [detect_duplicate]. *)
Fixpoint near_any (a : args) (hash1 : ImageHash) (hs : list ImageHash) : bool :=
  match hs with
  | [] => false
  | hash2 :: rest =>
      if decide (hash_sub hash1 hash2 ≤ diff_limit a) then true
      else near_any a hash1 rest
  end.

(** [detect_duplicate(f)]: the answer and the list [hashes] afterwards. *)
Definition detect_duplicate (a : args) (v_dir : directory)
    (hs : list ImageHash) (name : string) : result (bool * list ImageHash) :=
  match read_file v_dir name with
  | Raise e => Raise e
  | Ok data =>
      match hash_algorithm data (hash_size a) with
      | None => Raise UnidentifiedImageError
      | Some hash1 =>
          if near_any a hash1 hs then Ok (true, hs) else Ok (false, hs ++ [hash1])
      end
  end.

(** The frame loop, over [v_dir.iterdir()] in the order the directory
    yields its entries; an entry is the pair of [int(f.stem)] and
    [f.name]. *)
Fixpoint frame_loop (a : args) (v_dir : directory) (samples : option (gset Z))
    (entries : list frame_entry) (st : frames_state ImageHash)
    : result (frames_state ImageHash) :=
  match entries with
  | [] => Ok st
  | (fid, name) :: rest =>
      if not_selected a samples fid then frame_loop a v_dir samples rest st
      else
        let counted := S (total_files st) in
        if Qpositive (no_duplicates a) then
          match detect_duplicate a v_dir (hashes st) name with
          | Raise e => Raise e
          | Ok (true, hs) =>
              frame_loop a v_dir samples rest
                (mk_frames hs counted (S (duplicates st)) (frame_files st))
          | Ok (false, hs) =>
              frame_loop a v_dir samples rest
                (mk_frames hs counted (duplicates st) (frame_files st ++ [(fid, name)]))
          end
        else
          frame_loop a v_dir samples rest
            (mk_frames (hashes st) counted (duplicates st) (frame_files st ++ [(fid, name)]))
  end.

(** From [ids = ...] to [frame_files.sort()]: the state of the loop at its
    end, with [frame_files] sorted. *)
Definition select_frames (a : args) (v_dir : directory) (entries : list frame_entry)
    : result (frames_state ImageHash) :=
  match sample_ids a (entries.*1) with
  | Raise e => Raise e
  | Ok samples =>
      match frame_loop a v_dir samples entries (mk_frames [] O O []) with
      | Raise e => Raise e
      | Ok st =>
          Ok (mk_frames (hashes st) (total_files st) (duplicates st)
                (merge_sort frame_le (frame_files st)))
      end
  end.

(** ** The loop over the videos *)

(** A video with what the external tools return for it: the frame rate
    [get_frame_rate(vid)], and the directory [v_dir] that the decoder has
    filled, as the entries [iterdir()] yields and the files by name. *)
Record video : Type := mk_video {
  video_key : string;          (* vid.stem *)
  r_frame_rate : Q;
  v_entries : list frame_entry;
  v_dir : directory
}.

Record run_state : Type := mk_run {
  done_videos : gset string;
  frame_db : storage;
  stdout : list message
}.

Definition say (m : message) (st : run_state) : run_state :=
  mk_run (done_videos st) (frame_db st) (stdout st ++ [m]).

(** One iteration of [for vid in vid_pbar]. *)
Definition process_video (a : args) (vid : video) (st : run_state)
    : run_state * result unit :=
  let st1 := if decide (video_key vid ∈ done_videos st)
             then say (SeenBefore (video_key vid)) st else st in
  if Qpositive (interval a) && Qeq_bool (r_frame_rate vid) 0 then
    (say (FrameRateZero (video_key vid)) st1, Ok tt)   (* continue *)
  else
    match select_frames a (v_dir vid) (v_entries vid) with
    | Raise e => (st1, Raise e)
    | Ok fs =>
        let '(db, r) := put (frame_db st1) (video_key vid) (v_dir vid) (frame_files fs) in
        match r with
        | Raise e => (mk_run (done_videos st1) db (stdout st1), Raise e)
        | Ok _ =>
            let st2 := mk_run ({[video_key vid]} ∪ done_videos st1) db (stdout st1) in
            if Qpositive (no_duplicates a) then
              if decide (total_files fs = O) then (st2, Raise ZeroDivisionError)
              else (say (DuplicatesRemoved (video_key vid) (duplicates fs) (total_files fs)) st2,
                    Ok tt)
            else (st2, Ok tt)
        end
    end.

(** The loop; an exception ends the run. *)
Fixpoint process_videos (a : args) (all_videos : list video) (st : run_state)
    : run_state * result unit :=
  match all_videos with
  | [] => (st, Ok tt)
  | vid :: rest =>
      let '(st', r) := process_video a vid st in
      match r with
      | Raise e => (st', Raise e)
      | Ok _ => process_videos a rest st'
      end
  end.

(** The state before the loop: [done_videos = set()]. *)
Definition run_start (db : storage) : run_state := mk_run ∅ db [].

End Frames.

(** ** Definitions used to state the properties *)

(** A decimal numeral as [pretty] prints it: the single digit zero, or a
    string that starts with another character than the digit zero. *)
Definition canonical (s : string) : Prop :=
  s = "0" ∨ ∃ c s', s = String c s' ∧ c ≠ "0"%char.

(** A source file that [put] can read. *)
Definition readable (clip_tmp_dir : directory) (e : frame_entry) : Prop :=
  is_Some (clip_tmp_dir !! e.2).

(** The map [g] after the frames were written one by one, the frame at
    position [i] of the list under [name (k + i)]. *)
Fixpoint write_frames (name : nat → string) (clip_tmp_dir : directory) (k : nat)
    (frame_files : list frame_entry) (g : gmap string bytes) : gmap string bytes :=
  match frame_files with
  | [] => g
  | (_, frame_path) :: rest =>
      write_frames name clip_tmp_dir (S k) rest
        (<[name k := default [] (clip_tmp_dir !! frame_path)]> g)
  end.

(** The frame keys of a video with [n] frames, in list order. *)
Definition frame_keys (video_key : string) (n : nat) : list string :=
  frame_key video_key <$> seq 0 n.

(** A frame of the list whose file holds a valid image. *)
Definition valid_image (Image_open : bytes → option image_size)
    (clip_tmp_dir : directory) (e : frame_entry) : Prop :=
  ∃ data, clip_tmp_dir !! e.2 = Some data ∧ is_Some (Image_open data).

(** The entries that pass the two [continue] tests, in directory order. *)
Definition selected (a : args) (samples : option (gset Z)) (entries : list frame_entry)
    : list frame_entry :=
  filter (λ e, not_selected a samples e.1 = false) entries.

(** The rule of the specification for skip-stride sampling. *)
Definition spec_skip_retains (skip f : Z) : Prop := (f - 1) `mod` skip = 0.

(** The points of the specification for uniform sampling: [n] points spaced
    linearly from [lo] to [hi], each rounded to the nearest integer. *)
Definition spec_uniform_ids (lo hi n : Z) : list Z :=
  (λ i, if decide (n = 1) then lo
        else py_round (inject_Z lo + inject_Z (i * (hi - lo)) / inject_Z (n - 1))%Q)
    <$> seqZ 0 n.

(** The point of index [i] as the code computes it: the fraction is dropped. *)
Definition floor_point (lo hi n i : Z) : Z :=
  if decide (n = 1) then lo else lo + (i * (hi - lo)) `div` (n - 1).

Section DuplicateFilterSpec.

Variable ImageHash : Type.
Variable hash_algorithm : bytes → Z → option ImageHash.
Variable hash_sub : ImageHash → ImageHash → Z.

(** The fingerprint of the file of an entry. *)
Definition fingerprint (a : args) (v_dir : directory) (e : frame_entry)
    : option ImageHash :=
  v_dir !! e.2 ≫= λ data, hash_algorithm data (hash_size a).

(** The Duplicate Filter as the specification words it, run over the
    candidates in the order given: a candidate is discarded when its
    fingerprint is within [limit] of some accepted fingerprint, and is
    otherwise kept and its fingerprint appended.  The result is the list
    of the kept candidates and the accepted fingerprints. *)
Fixpoint spec_duplicate_filter (limit : Z) (fp : frame_entry → ImageHash)
    (candidates : list frame_entry) (accepted : list ImageHash)
    : list frame_entry * list ImageHash :=
  match candidates with
  | [] => ([], accepted)
  | e :: rest =>
      if decide (Exists (λ h, hash_sub (fp e) h ≤ limit) accepted)
      then spec_duplicate_filter limit fp rest accepted
      else
        let '(kept, acc) := spec_duplicate_filter limit fp rest (accepted ++ [fp e]) in
        (e :: kept, acc)
  end.

End DuplicateFilterSpec.

(** The [continue] of interval sampling: the frame rate of the video is 0. *)
Definition skipped (a : args) (vid : video) : bool :=
  Qpositive (interval a) && Qeq_bool (r_frame_rate vid) 0.

(** ** A small image format and fingerprint, for closed examples *)

Module Toy.

(** An image file: a width byte, a height byte, then one colour byte. *)
Definition Image_open (data : bytes) : option image_size :=
  match data with
  | w :: h :: _ => Some (Z.of_N (Byte.to_N w), Z.of_N (Byte.to_N h))
  | _ => None
  end.

(** The fingerprint: the eight bits of the colour byte. *)
Definition hash_algorithm (data : bytes) (hash_size : Z) : option (list bool) :=
  match data with
  | _ :: _ :: c :: _ => Some (N.testbit (Byte.to_N c) <$> [0; 1; 2; 3; 4; 5; 6; 7]%N)
  | _ => None
  end.

(** The number of positions where two fingerprints differ. *)
Fixpoint hash_sub (h1 h2 : list bool) : Z :=
  match h1, h2 with
  | b1 :: r1, b2 :: r2 => (if Bool.eqb b1 b2 then 0 else 1) + hash_sub r1 r2
  | _, _ => 0
  end.

Definition solid (colour : Byte.byte) : bytes := [Byte.x02; Byte.x02; colour].

(** Five decoded frames; frames 2 and 4 are copies of frame 1. *)
Definition five_frames : directory :=
  list_to_map [("00000001.jpg", solid Byte.x00); ("00000002.jpg", solid Byte.x00);
               ("00000003.jpg", solid Byte.x0f); ("00000004.jpg", solid Byte.x00);
               ("00000005.jpg", solid Byte.xff)].

Definition ascending : list frame_entry :=
  [(1, "00000001.jpg"); (2, "00000002.jpg"); (3, "00000003.jpg");
   (4, "00000004.jpg"); (5, "00000005.jpg")].

Definition six_frames : directory :=
  <["00000006.jpg" := solid Byte.x3c]> five_frames.

Definition six_entries : list frame_entry := ascending ++ [(6, "00000006.jpg")].

(** The options: the defaults, then one option changed at a time. *)
Definition default_args : args := mk_args 1 (-1) 0 0 8.
Definition threshold_099 : args := mk_args 1 (-1) 0 (99 # 100) 8.
Definition uniform_4 : args := mk_args 1 4 0 0 8.
Definition skip_2 : args := mk_args 2 (-1) 0 0 8.
Definition skip_minus_2 : args := mk_args (-2) (-1) 0 0 8.
Definition every_second : args := mk_args 1 (-1) 1 0 8.

(** A fingerprint engine that cannot open any file. *)
Definition no_engine (data : bytes) (hash_size : Z) : option (list bool) := None.

Definition fp (e : frame_entry) : list bool :=
  default [] (fingerprint (list bool) hash_algorithm threshold_099 five_frames e).

(** A video of 30 frames per second, and one whose frame rate is 0. *)
Definition clip : video := mk_video "clip" 30 ascending five_frames.
Definition still : video := mk_video "still" 0 ascending five_frames.

End Toy.

(** ** The start of a run: options, videos, decoder arguments *)

(** The exceptions of the code before and around the frame loop. *)
Inductive failure : Type :=
  | AssertionError      (* a failed [assert] *)
  | InvalidFrameScale   (* Exception('Invalid frame scale option') *)
  | IndexError          (* a list index out of range *).

Abbreviation checked A := (failure + A)%type.

(** [assert b] *)
Definition py_assert (b : bool) : checked unit :=
  if b then inr tt else inl AssertionError.

(** One statement after another. *)
Definition and_then {A} (c : checked unit) (k : checked A) : checked A :=
  match c with
  | inl e => inl e
  | inr _ => k
  end.

Definition Qlt_bool (x y : Q) : bool :=
  match (x ?= y)%Q with Lt => true | _ => false end.

(** The resize options [-s], [-H], [-W]. *)
Record resize : Type := mk_resize {
  short : Z;
  height : Z;
  width : Z
}.

(** The "sanity check of the options" that ends [parse_args]. *)
Definition parse_args_check (r : resize) (a : args) : checked unit :=
  and_then (if decide (0 < short r)
            then py_assert (bool_decide (height r = 0 ∧ width r = 0))
            else inr tt)
  (and_then (if decide (0 < height r ∨ 0 < width r)
             then py_assert (bool_decide (0 < height r ∧ 0 < width r ∧ short r = 0))
             else inr tt)
  (and_then (py_assert (Qle_bool 0 (no_duplicates a) && Qlt_bool (no_duplicates a) 1))
            (py_assert (bool_decide (0 < hash_size a ∧ hash_size a ≤ 1024))))).

(** ["%d" % n] *)
Definition fmt_d (n : Z) : string := pretty n.

(** The "scaling options" of the main program: the first value of
    [vf_options]. *)
Definition scale_options (r : resize) : checked (list string) :=
  if decide (short r = 0 ∧ width r = 0 ∧ height r = 0) then inr []
  else if decide (0 < short r) then
    inr ["-vf";
         "scale='iw*1.0/min(iw,ih)*" +:+ fmt_d (short r)
         +:+ "':'ih*1.0/min(iw,ih)*" +:+ fmt_d (short r) +:+ "'"]
  else if decide (0 < height r ∧ 0 < width r) then
    inr ["-vf"; "scale=" +:+ fmt_d (width r) +:+ ":" +:+ fmt_d (height r)]
  else inl InvalidFrameScale.

(** The "sampling options": with [--interval] the two arguments are added
    and the other sampling options must be off. *)
Definition sampling_options (a : args) (vf_options : list string) : checked (list string) :=
  if Qpositive (interval a) then
    and_then (py_assert (bool_decide (num_frame a ≤ 0 ∧ skip a = 1)))
             (inr (vf_options ++ ["-vsync"; "vfr"]))
  else inr vf_options.

(** ["select=not(mod(n\,%d))" % (int(round(args.interval*r_frame_rate)))] *)
Definition select_str (a : args) (r_frame_rate : Q) : string :=
  "select=not(mod(n\," +:+ fmt_d (py_round (interval a * r_frame_rate)%Q) +:+ "))".

(** The "sampling" step of one video with [--interval] and a frame rate
    other than 0: the select filter is added to the value that follows
    ['-vf'], or becomes the whole of [vf_options] when there is no ['-vf']. *)
Definition interval_options (a : args) (r_frame_rate : Q) (vf_options : list string)
    : checked (list string) :=
  match list_find (λ o, o = "-vf") vf_options with
  | Some (vf_index, _) =>
      match vf_options !! S vf_index with
      | Some value =>
          inr (<[S vf_index := value +:+ "," +:+ select_str a r_frame_rate]> vf_options)
      | None => inl IndexError
      end
  | None => inr ["-vf"; select_str a r_frame_rate]
  end.

(** [vf_options] after the iterations for videos of the given frame rates;
    [vf_options] is one variable for the whole loop. *)
Fixpoint vf_options_after (a : args) (rates : list Q) (vf_options : list string)
    : checked (list string) :=
  match rates with
  | [] => inr vf_options
  | r_frame_rate :: rest =>
      if Qpositive (interval a) then
        if Qeq_bool r_frame_rate 0 then vf_options_after a rest vf_options   (* continue *)
        else
          match interval_options a r_frame_rate vf_options with
          | inl e => inl e
          | inr vf_options' => vf_options_after a rest vf_options'
          end
      else vf_options_after a rest vf_options
  end.

(** [get_frame_rate]: the output of the probe is the empty object ([None])
    or has a list of streams, each with its [r_frame_rate], a numerator and a
    denominator (read as exact rationals). *)
Definition get_frame_rate (output : option (list (Q * Q))) : Q :=
  match output with
  | None => 0
  | Some streams =>
      foldl (λ r_frame_rate nums,
               if Qeq_bool nums.2 0 then r_frame_rate
               else
                 let frame_rate := (nums.1 / nums.2)%Q in
                 if Qeq_bool frame_rate 0 then r_frame_rate else frame_rate)
            0%Q streams
  end.

(** A path of the video directory, with the two parts the scan reads. *)
Record file_path : Type := mk_path {
  path_stem : string;      (* f.stem *)
  path_suffix : string     (* f.suffix *)
}.

Definition VIDEO_FORMATS : list string :=
  [".mp4"; ".avi"; ".flv"; ".mkv"; ".webm"; ".mov"].

(** The loop over [args.video_path.iterdir()]. *)
Fixpoint iter_videos (files : list file_path) (all_videos : list file_path)
    (unique_vids : gset string) : list file_path :=
  match files with
  | [] => all_videos
  | f :: rest =>
      if decide (path_suffix f ∈ VIDEO_FORMATS ∧ path_stem f ∉ unique_vids)
      then iter_videos rest (all_videos ++ [f]) ({[path_stem f]} ∪ unique_vids)
      else iter_videos rest all_videos unique_vids
  end.

(** [all_videos]: the scan of a directory, or the one file given. *)
Definition find_videos (is_dir : bool) (video_path : file_path) (files : list file_path)
    : list file_path :=
  if is_dir then iter_videos files [] ∅ else [video_path].

(** The file [video_key/name] of a storage directory. *)
Definition file_at (r : FILE.root) (video_key name : string) : option bytes :=
  r !! video_key ≫= λ save_dir, save_dir !! name.

(** The content of the source file of an entry. *)
Definition content (clip_tmp_dir : directory) (e : frame_entry) : bytes :=
  default [] (clip_tmp_dir !! e.2).

(** The images that open, in scan order. *)
Definition opened_sizes {A} (opened : A → option image_size) (l : list A) : list image_size :=
  omap opened l.

#[global] Instance Qeq_decision (x y : Q) : Decision (x == y)%Q := Qeq_dec x y.

(** A stream of the probe's output with a frame rate that can be used:
    neither the denominator nor the numerator is 0. *)
Definition usable_rate (nums : Q * Q) : Prop := ¬ (nums.2 == 0)%Q ∧ ¬ (nums.1 == 0)%Q.

#[global] Instance usable_rate_dec nums : Decision (usable_rate nums).
Proof. unfold usable_rate. apply _. Defined.

(** The select clauses that the videos of the given frame rates add to the
    filter, one for each frame rate other than 0. *)
Fixpoint select_clauses (a : args) (rates : list Q) : string :=
  match rates with
  | [] => ""
  | r_frame_rate :: rest =>
      if Qeq_bool r_frame_rate 0 then select_clauses a rest
      else "," +:+ select_str a r_frame_rate +:+ select_clauses a rest
  end.

(** A printed line other than the "seen before" notice. *)
Definition not_notice (m : message) : Prop :=
  match m with
  | SeenBefore _ => False
  | _ => True
  end.

(** Fingerprints in the order of acceptance, each further than [limit] from
    every one accepted before it. *)
Definition far_apart {ImageHash : Type} (hash_sub : ImageHash → ImageHash → Z)
    (limit : Z) (hs : list ImageHash) : Prop :=
  ∀ i j hi hj, (i < j)%nat → hs !! i = Some hi → hs !! j = Some hj →
               limit < hash_sub hj hi.

(** The frames of a video that the main loop hands to [put]: the sorted
    [frame_files] at the end of the frame loop. *)
Definition kept_frames {ImageHash : Type} (hash_algorithm : bytes → Z → option ImageHash)
    (hash_sub : ImageHash → ImageHash → Z) (a : args) (vid : video)
    : list frame_entry :=
  match select_frames ImageHash hash_algorithm hash_sub a (v_dir vid) (v_entries vid) with
  | Ok fs => frame_files fs
  | Raise _ => []
  end.

(** ** More closed examples *)

Module Cases.

Definition first_frame : frame_entry := (1, "00000001.jpg").
Definition last_frame : frame_entry := (5, "00000005.jpg").

(** An entry whose file is not in the directory. *)
Definition missing : frame_entry := (2, "missing.jpg").

Definition no_resize : resize := mk_resize 0 0 0.
Definition short_256 : resize := mk_resize 256 0 0.

(** The frame rates of three videos; the second cannot be probed. *)
Definition rates : list Q := [30; 0; 25]%Q.

(** A directory with two videos of one stem and a file that is no video. *)
Definition listing : list file_path :=
  [mk_path "a" ".mp4"; mk_path "a" ".avi"; mk_path "notes" ".txt"; mk_path "b" ".mkv"].

(** Every video decodes to the five frames of [Toy]. *)
Definition decode (f : file_path) : video :=
  mk_video (path_stem f) 30 Toy.ascending Toy.five_frames.

(** The end of the frame loop over the five frames with threshold 0.99. *)
Definition filtered : frames_state (list bool) :=
  match select_frames (list bool) Toy.hash_algorithm Toy.hash_sub
          Toy.threshold_099 Toy.five_frames Toy.ascending with
  | Ok fs => fs
  | Raise _ => mk_frames [] O O []
  end.

(** A video for which the decoder wrote no frame. *)
Definition empty_video : video := mk_video "empty" 30 [] ∅.

(** The end of a run with [--interval 1] over a video and one whose frame
    rate is 0. *)
Definition after_run : run_state :=
  (process_videos (list bool) Toy.hash_algorithm Toy.hash_sub Toy.every_second
     [Toy.clip; Toy.still] (run_start (create DB_LMDB))).1.

End Cases.

(** A string of decimal digits and the number it denotes. *)
Definition is_digit (c : ascii) : Prop := (48 ≤ N_of_ascii c ≤ 57)%N.

Fixpoint digits (s : string) : Prop :=
  match s with
  | EmptyString => True
  | String c s' => is_digit c ∧ digits s'
  end.

Fixpoint numeral_from (acc : N) (s : string) : N :=
  match s with
  | EmptyString => acc
  | String c s' => numeral_from (10 * acc + (N_of_ascii c - 48))%N s'
  end.

Definition numeral (s : string) : N := numeral_from 0 s.

(** ** Facts about frame keys *)

Lemma length_zeros n : String.length (zeros n) = n.
Proof. induction n as [|n IH]; simpl; [done | by rewrite IH]. Qed.

Lemma string_length_app (s1 s2 : string) :
  String.length (s1 +:+ s2) = (String.length s1 + String.length s2)%nat.
Proof. induction s1 as [|a s1 IH]; simpl; [done | by rewrite IH]. Qed.

Lemma pretty_N_go_leading (x : N) (s : string) :
  (0 < x)%N → ∃ c s', pretty_N_go x s = String c s' ∧ c ≠ "0"%char.
Proof.
  revert s. induction (N.lt_wf_0 x) as [x _ IH]; intros s Hx.
  rewrite pretty_N_go_step by done.
  destruct (decide (x `div` 10 = 0)%N) as [Hq|Hq].
  - rewrite Hq, pretty_N_go_0. eexists _, _; split; [done|].
    assert (x < 10)%N as Hlt by (apply N.div_small_iff in Hq; lia).
    rewrite N.mod_small by done.
    assert (x = 1 ∨ x = 2 ∨ x = 3 ∨ x = 4 ∨ x = 5 ∨ x = 6
          ∨ x = 7 ∨ x = 8 ∨ x = 9)%N as Hc by lia.
    repeat (destruct Hc as [-> | Hc]; [by compute|]). subst x. by compute.
  - apply IH.
    + apply N.div_lt; lia.
    + apply N.neq_0_lt_0, Hq.
Qed.

Lemma pretty_nat_canonical (n : nat) : canonical (pretty n).
Proof.
  unfold pretty, pretty_nat, pretty, pretty_N.
  case_decide; [by left | right].
  apply pretty_N_go_leading. lia.
Qed.

Lemma zeros_app_canonical_inj (a b : nat) (s t : string) :
  canonical s → canonical t → zeros a +:+ s = zeros b +:+ t → s = t.
Proof.
  intros Hs Ht. revert b; induction a as [|a IH]; intros [|b] Heq; simpl in Heq.
  - done.
  - destruct Hs as [->|(c & s' & -> & Hc)]; simplify_eq/=.
    destruct b; simplify_eq/=.
    destruct Ht as [?|(? & ? & ? & ?)]; simplify_eq/=.
  - destruct Ht as [->|(c & t' & -> & Hc)]; simplify_eq/=.
    destruct a; simplify_eq/=.
    destruct Hs as [?|(? & ? & ? & ?)]; simplify_eq/=.
  - injection Heq as Heq. by eapply IH.
Qed.

Lemma fmt_08d_inj (i j : nat) : fmt_08d i = fmt_08d j → i = j.
Proof.
  unfold fmt_08d. intros Heq.
  apply zeros_app_canonical_inj in Heq; auto using pretty_nat_canonical.
  by apply (inj pretty) in Heq.
Qed.

Lemma frame_key_inj (video_key : string) (i j : nat) :
  frame_key video_key i = frame_key video_key j → i = j.
Proof.
  unfold frame_key. intros Heq.
  apply (inj (String.app video_key)) in Heq.
  apply (inj (String.app "/")) in Heq.
  by apply fmt_08d_inj.
Qed.

Example fmt_08d_7 : fmt_08d 7 = "00000007".
Proof. reflexivity. Qed.

Example frame_key_clip : frame_key "clip" 12 = "clip/00000012".
Proof. reflexivity. Qed.

(** ** Writing the frames of a video *)

Section WriteFrames.

Context (name : nat → string) `{!Inj (=) (=) name}.
Implicit Types (g : gmap string bytes) (frames : list frame_entry).

Lemma write_frames_other dir frames : ∀ k g key,
  (∀ i, (i < length frames)%nat → key ≠ name (k + i)%nat) →
  write_frames name dir k frames g !! key = g !! key.
Proof.
  induction frames as [|[fid p] rest IH]; intros k g key Hkey; simpl; [done|].
  rewrite IH.
  - apply lookup_insert_ne. specialize (Hkey O). rewrite Nat.add_0_r in Hkey.
    intros Heq. apply Hkey; [simpl; lia | done].
  - intros i Hi. replace (S k + i)%nat with (k + S i)%nat by lia.
    apply Hkey. simpl. lia.
Qed.

Lemma write_frames_lookup dir frames : ∀ k g i e,
  frames !! i = Some e →
  write_frames name dir k frames g !! name (k + i)%nat
  = Some (default [] (dir !! e.2)).
Proof.
  induction frames as [|[fid p] rest IH]; intros k g i e Hi; [done|].
  destruct i as [|i]; simpl in *.
  - injection Hi as <-. rewrite write_frames_other.
    + rewrite Nat.add_0_r. apply lookup_insert_eq.
    + intros j _ Heq. apply (inj name) in Heq. lia.
  - replace (k + S i)%nat with (S k + i)%nat by lia. by apply IH.
Qed.

Lemma dom_write_frames dir frames : ∀ k g,
  dom (write_frames name dir k frames g)
  = dom g ∪ list_to_set (name <$> seq k (length frames)).
Proof.
  induction frames as [|[fid p] rest IH]; intros k g; simpl.
  - set_solver.
  - rewrite IH, dom_insert_L. set_solver.
Qed.

Lemma size_write_frames dir frames k :
  size (write_frames name dir k frames ∅) = length frames.
Proof.
  rewrite <-size_dom, dom_write_frames, dom_empty_L, (left_id_L ∅ (∪)).
  rewrite size_list_to_set.
  - by rewrite length_fmap, length_seq.
  - apply NoDup_fmap_2; [done | apply NoDup_seq].
Qed.

Lemma write_frames_values dir frames k key data :
  write_frames name dir k frames ∅ !! key = Some data →
  ∃ e, e ∈ frames ∧ data = default [] (dir !! e.2).
Proof.
  intros Hkey.
  assert (key ∈ dom (write_frames name dir k frames ∅)) as Hdom
    by (apply elem_of_dom; eauto).
  rewrite dom_write_frames, dom_empty_L, (left_id_L ∅ (∪)) in Hdom.
  apply elem_of_list_to_set, list_elem_of_fmap in Hdom as (j & -> & Hj).
  apply elem_of_seq in Hj as [Hj1 Hj2].
  destruct (lookup_lt_is_Some_2 frames (j - k)) as [e He]; [lia|].
  exists e. split; [by eapply list_elem_of_lookup_2|].
  pose proof (write_frames_lookup dir frames k ∅ (j - k) e He) as Hl.
  replace (k + (j - k))%nat with j in Hl by lia. congruence.
Qed.

End WriteFrames.

#[global] Instance frame_key_Inj video_key : Inj (=) (=) (frame_key video_key).
Proof. intros i j. apply frame_key_inj. Qed.

#[global] Instance fmt_08d_Inj : Inj (=) (=) fmt_08d.
Proof. intros i j. apply fmt_08d_inj. Qed.

#[global] Instance jpg_name_Inj : Inj (=) (=) FILE.jpg_name.
Proof.
  intros i j Heq. unfold FILE.jpg_name in Heq. apply fmt_08d_inj.
  assert (∀ s t u : string, s +:+ u = t +:+ u → s = t) as Hr.
  { intros s t u Hstu.
    assert (String.length s = String.length t) as Hlen.
    { apply (f_equal String.length) in Hstu.
      rewrite !string_length_app in Hstu. lia. }
    revert t Hstu Hlen. induction s as [|a s IH]; intros [|b t] Hstu Hlen;
      simplify_eq/=; [done|]. f_equal. by apply IH. }
  by eapply Hr.
Qed.

Lemma read_file_readable dir (fid : Z) (p : string) :
  readable dir (fid, p) → read_file dir p = Ok (default [] (dir !! p)).
Proof. intros [data Hd]. simpl in Hd. unfold read_file. by rewrite Hd. Qed.


(** ** What [put] leaves in each store *)

Lemma LMDB_put_loop_readable vk dir frames : ∀ k txn,
  Forall (readable dir) frames →
  LMDB.put_loop vk dir k frames txn = Ok (write_frames (frame_key vk) dir k frames txn).
Proof.
  induction frames as [|[fid p] rest IH]; intros k txn Hall; simpl; [done|].
  apply Forall_cons in Hall as [Hp Hrest].
  rewrite (read_file_readable dir fid p) by done. by apply IH.
Qed.

Lemma LMDB_put_loop_unreadable vk dir frames : ∀ k txn,
  Exists (λ e, ¬ readable dir e) frames →
  LMDB.put_loop vk dir k frames txn = Raise FileNotFoundError.
Proof.
  induction frames as [|[fid p] rest IH]; intros k txn Hex; simpl.
  - by apply Exists_nil in Hex.
  - unfold read_file. destruct (dir !! p) as [data|] eqn:Hp; [|done].
    apply Exists_cons in Hex as [Hbad|Hex]; [|by apply IH].
    exfalso. apply Hbad. unfold readable. simpl. by rewrite Hp.
Qed.

Lemma HDF5_put_loop_readable vk dir frames : ∀ k f,
  Forall (readable dir) frames →
  (∀ i, (i < length frames)%nat → default ∅ (f !! vk) !! fmt_08d (k + i) = None) →
  HDF5.put_loop vk dir k frames f
  = (match frames with
     | [] => f
     | _ => <[vk := write_frames fmt_08d dir k frames (default ∅ (f !! vk))]> f
     end, Ok tt).
Proof.
  induction frames as [|[fid p] rest IH]; intros k f Hall Hfresh; [done|].
  apply Forall_cons in Hall as [Hp Hrest].
  cbn [HDF5.put_loop]. rewrite (read_file_readable dir fid p) by done.
  unfold HDF5.set_item.
  pose proof (Hfresh O ltac:(simpl; lia)) as H0. rewrite Nat.add_0_r in H0.
  rewrite H0. rewrite IH; [|done|].
  - destruct rest; [done|].
    rewrite lookup_insert_eq. cbn [from_option id write_frames].
    by rewrite insert_insert_eq.
  - intros i Hi. rewrite lookup_insert_eq. cbn [from_option id].
    rewrite lookup_insert_ne.
    + replace (S k + i)%nat with (k + S i)%nat by lia. apply Hfresh. simpl; lia.
    + intros Heq. apply (inj fmt_08d) in Heq. lia.
Qed.

Lemma FILE_put_loop_readable vk dir frames : ∀ k r,
  Forall (readable dir) frames →
  FILE.put_loop vk dir k frames r
  = (match frames with
     | [] => r
     | _ => <[vk := write_frames FILE.jpg_name dir k frames (default ∅ (r !! vk))]> r
     end, Ok tt).
Proof.
  induction frames as [|[fid p] rest IH]; intros k r Hall; [done|].
  apply Forall_cons in Hall as [Hp Hrest].
  cbn [FILE.put_loop]. rewrite (read_file_readable dir fid p) by done.
  rewrite IH by done. destruct rest; [done|].
  rewrite lookup_insert_eq. cbn [from_option id write_frames].
  by rewrite insert_insert_eq.
Qed.

Lemma PKL_read_frames_readable dir frames : ∀ frame_data,
  Forall (readable dir) frames →
  PKL.read_frames dir frames frame_data
  = Ok (frame_data ++ ((λ e, default [] (dir !! e.2)) <$> frames)).
Proof.
  induction frames as [|[fid p] rest IH]; intros acc Hall; simpl.
  - by rewrite app_nil_r.
  - apply Forall_cons in Hall as [Hp Hrest].
    rewrite (read_file_readable dir fid p) by done.
    rewrite IH by done. by rewrite <-app_assoc.
Qed.

Lemma readable_lookup dir e : readable dir e → dir !! e.2 = Some (default [] (dir !! e.2)).
Proof. intros [data Hd]. by rewrite Hd. Qed.


(** C7.  [LMDBStorage.put] is all or nothing for one video: when every
    source file can be read, it commits every frame under its key; when some
    source file cannot be read, it raises and the database is exactly what it
    was before the call, so that no frame of this video is committed while
    everything earlier calls have committed stays. *)
Theorem LMDB_put_all_or_nothing (db : LMDB.env) (video_key : string)
    (clip_tmp_dir : directory) (frame_files : list frame_entry) :
  (Forall (readable clip_tmp_dir) frame_files
   ∧ ∃ db', LMDB.put db video_key clip_tmp_dir frame_files = (db', Ok tt)
        ∧ ∀ i e, frame_files !! i = Some e →
                 db' !! frame_key video_key i = clip_tmp_dir !! e.2)
  ∨ (Exists (λ e, ¬ readable clip_tmp_dir e) frame_files
     ∧ LMDB.put db video_key clip_tmp_dir frame_files = (db, Raise FileNotFoundError)).
Proof.
  destruct (decide (Forall (readable clip_tmp_dir) frame_files)) as [Hall|Hex].
  - left. split; [done|].
    exists (write_frames (frame_key video_key) clip_tmp_dir 0 frame_files db).
    unfold LMDB.put. rewrite LMDB_put_loop_readable by done. split; [done|].
    intros i e Hi.
    rewrite (write_frames_lookup (frame_key video_key) _ _ 0 db i e Hi).
    symmetry. apply readable_lookup. rewrite Forall_forall in Hall.
    apply Hall. by eapply list_elem_of_lookup_2.
  - right. apply not_Forall_Exists in Hex; [|apply _].
    split; [done|]. unfold LMDB.put. by rewrite LMDB_put_loop_unreadable.
Qed.

(** C6.  Creating the HDF5 backend on a fresh path succeeds, and creating it
    again on the same path fails with [FileExistsError] and leaves what is
    stored there as it is. *)
Theorem HDF5_init_exclusive (fs : gmap string HDF5.file) (path : string) :
  fs !! path = None →
  ∃ fs1 h, HDF5.init fs path = (fs1, Ok h)
    ∧ HDF5.init fs1 path = (fs1, Raise FileExistsError)
    ∧ ∀ fs2 content, fs2 !! path = Some content →
        HDF5.init fs2 path = (fs2, Raise FileExistsError).
Proof.
  intros Hfresh. exists (<[path := ∅]> fs), ∅. unfold HDF5.init.
  rewrite Hfresh, lookup_insert_eq. repeat split.
  intros fs2 content ->. done.
Qed.

(** ** Tallies *)

Lemma frame_count_empty : frame_count ∅ = O.
Proof. unfold frame_count. by rewrite map_fold_empty. Qed.

Lemma frame_count_tally (m : meta) (sz : image_size) :
  frame_count (<[sz := S (default O (m !! sz))]> m) = S (frame_count m).
Proof.
  unfold frame_count.
  assert (∀ (m' : meta) (j1 j2 : image_size) (z1 z2 y : nat),
    j1 ≠ j2 → m' !! j1 = Some z1 → m' !! j2 = Some z2 →
    (z1 + (z2 + y) = z2 + (z1 + y))%nat) as Hcomm by (intros; lia).
  destruct (m !! sz) as [c|] eqn:Hc; cbn [from_option id].
  - rewrite <-insert_delete_eq.
    rewrite map_fold_insert_L; [|by eauto|by rewrite lookup_delete_eq].
    rewrite (map_fold_delete_L _ _ sz c m); [lia|by eauto|done].
  - rewrite map_fold_insert_L; [lia|by eauto|done].
Qed.

Lemma frame_count_scan_start : frame_count (info scan_start) = O.
Proof. apply frame_count_empty. Qed.

Section TallyFold.

Context {A : Type} (what : A → string) (opened : A → option image_size).

#[local] Abbreviation step := (λ (s : scan) (x : A), tally (what x) (opened x) s).

Lemma tally_fold_valid (l : list A) : ∀ s,
  Forall (λ x, is_Some (opened x)) l →
  frame_count (info (foldl step s l)) = (frame_count (info s) + length l)%nat
  ∧ (l ≠ [] → is_Some (img (foldl step s l)))
  ∧ printed (foldl step s l) = printed s.
Proof.
  induction l as [|x l IH]; intros s Hall; simpl.
  - split; [lia | done].
  - apply Forall_cons in Hall as [[sz Hx] Hl]. rewrite Hx.
    destruct (IH (tally (what x) (Some sz) s) Hl) as (Ht & Himg & Hp).
    rewrite Ht, Hp. cbn [tally info printed]. rewrite frame_count_tally.
    split; [lia|]. split; [|done]. intros _.
    destruct l as [|y l']; [by eexists | by apply Himg].
Qed.

Lemma tally_fold_invalid (l : list A) : ∀ s,
  Forall (λ x, opened x = None) l →
  info (foldl step s l) = info s ∧ img (foldl step s l) = img s.
Proof.
  induction l as [|x l IH]; intros s Hall; simpl; [done|].
  apply Forall_cons in Hall as [Hx Hl]. rewrite Hx.
  by destruct (IH (tally (what x) None s) Hl) as [-> ->].
Qed.

End TallyFold.

Lemma by_name_singleton {A} (k : string) (x : A) :
  by_name ({[k := x]} : gmap string A) = [(k, x)].
Proof.
  unfold by_name. rewrite map_to_list_singleton.
  apply Permutation_singleton_r, merge_sort_Permutation.
Qed.

Lemma by_name_Permutation {A} (m : gmap string A) : by_name m ≡ₚ map_to_list m.
Proof. apply merge_sort_Permutation. Qed.

Lemma length_by_name {A} (m : gmap string A) : length (by_name m) = size m.
Proof. by rewrite by_name_Permutation, length_map_to_list. Qed.

Lemma ends_with_app (suffix s : string) : ends_with suffix (s +:+ suffix) = true.
Proof.
  induction s as [|a s IH].
  - change ("" +:+ suffix) with suffix.
    destruct suffix; simpl; [done|]. by rewrite Ascii.eqb_refl, String.eqb_refl.
  - change (String a s +:+ suffix) with (String a (s +:+ suffix)).
    cbn [ends_with]. destruct (String.eqb (String a (s +:+ suffix)) suffix); [done | apply IH].
Qed.

(** C5.  On a database that holds no frame, [HDF5Storage.info] prints the
    no-frames line and then raises at [return info, img], because [img] was
    never assigned; [LMDBStorage.info] raises in the same way and prints
    nothing.  Neither returns a report. *)
Theorem info_of_empty_database (Image_open : bytes → option image_size) :
  HDF5_info Image_open ∅ = ([NoVideoFramesFound], Raise UnboundLocalError)
  ∧ LMDB_info Image_open ∅ = ([], Raise UnboundLocalError).
Proof. split; reflexivity. Qed.

(** ** [info] after [put] *)

Lemma scan_return_bound (s : scan) :
  is_Some (img s) → ∃ im, scan_return s = (printed s, Ok (info s, im)).
Proof. intros [im Him]. exists im. unfold scan_return. by rewrite Him. Qed.

Lemma scan_return_unbound (s : scan) :
  img s = None → scan_return s = (printed s, Raise UnboundLocalError).
Proof. intros Him. unfold scan_return. by rewrite Him. Qed.

Lemma filter_Forall_id {A} (P : A → Prop) `{!∀ x, Decision (P x)} (l : list A) :
  Forall P l → filter P l = l.
Proof.
  induction 1 as [|x l Hx Hl IH]; [done|].
  rewrite filter_cons_True by done. by rewrite IH.
Qed.

Lemma valid_image_readable Image_open dir e : valid_image Image_open dir e → readable dir e.
Proof. intros (data & Hd & _). unfold readable. by rewrite Hd. Qed.

Lemma valid_image_opened Image_open dir e :
  valid_image Image_open dir e → is_Some (Image_open (default [] (dir !! e.2))).
Proof. intros (data & Hd & Hopen). by rewrite Hd. Qed.

Lemma written_values_valid Image_open (name : nat → string) `{!Inj (=) (=) name}
    dir frames :
  Forall (valid_image Image_open dir) frames →
  Forall (λ kv : string * bytes, is_Some (Image_open kv.2))
    (map_to_list (write_frames name dir 0 frames ∅)).
Proof.
  intros Hvalid. apply Forall_forall. intros [key data] Hin.
  apply elem_of_map_to_list in Hin.
  apply (write_frames_values name) in Hin as (e & He & ->).
  rewrite Forall_forall in Hvalid. by eapply valid_image_opened, Hvalid.
Qed.

Lemma FILE_glob_singleton (video_key : string) (save_dir : gmap string bytes) :
  FILE_glob {[video_key := save_dir]}
  = (if ends_with ".jpg" video_key then [(video_key, None)] else [])
    ++ ((λ f : string * bytes, (video_key +:+ "/" +:+ f.1, Some f.2))
          <$> filter (λ f, ends_with ".jpg" f.1 = true) (map_to_list save_dir)).
Proof.
  unfold FILE_glob. rewrite map_to_list_singleton.
  cbn [fmap list_fmap mjoin list_join fst snd]. rewrite app_nil_r. f_equal.
  destruct (ends_with ".jpg" video_key) eqn:Hjpg.
  - by rewrite filter_cons_True.
  - rewrite filter_cons_False; [done|]. cbn [fst]. by rewrite Hjpg.
Qed.

Lemma FILE_info_singleton Image_open (video_key : string) (save_dir : gmap string bytes) :
  Forall (λ kv : string * bytes, ends_with ".jpg" kv.1 = true) (map_to_list save_dir) →
  Forall (λ kv : string * bytes, is_Some (Image_open kv.2)) (map_to_list save_dir) →
  size save_dir ≠ O →
  ∃ msgs report im,
    FILE_info Image_open {[video_key := save_dir]} = (msgs, Ok (report, im))
    ∧ frame_count report = size save_dir.
Proof.
  intros Hjpg Hvalid Hsize. unfold FILE_info.
  rewrite FILE_glob_singleton, filter_Forall_id by done.
  rewrite foldl_app, foldl_fmap. cbn [fst snd mbind option_bind].
  set (s1 := foldl _ scan_start (if ends_with ".jpg" video_key then _ else _)).
  assert (info s1 = ∅) as Hinfo.
  { subst s1. by destruct (ends_with ".jpg" video_key). }
  destruct (tally_fold_valid (λ f : string * bytes, video_key +:+ "/" +:+ f.1)
              (λ f : string * bytes, Image_open f.2) (map_to_list save_dir) s1 Hvalid)
    as (Ht & Hbound & Hp).
  destruct (scan_return_bound _ (Hbound ltac:(
    intros Hnil; apply Hsize; by rewrite <-length_map_to_list, Hnil))) as [im Hret].
  eexists _, _, im. split; [exact Hret|].
  by rewrite Ht, Hinfo, frame_count_empty, length_map_to_list.
Qed.

Lemma FILE_info_empty_dir Image_open (video_key : string) :
  ∃ msgs, FILE_info Image_open {[video_key := ∅]} = (msgs, Raise UnboundLocalError).
Proof.
  unfold FILE_info. rewrite FILE_glob_singleton, map_to_list_empty.
  rewrite filter_nil, fmap_nil, app_nil_r.
  eexists. apply scan_return_unbound. by destruct (ends_with ".jpg" video_key).
Qed.

Lemma written_names_jpg dir frames :
  Forall (λ kv : string * bytes, ends_with ".jpg" kv.1 = true)
    (map_to_list (write_frames FILE.jpg_name dir 0 frames ∅)).
Proof.
  apply Forall_forall. intros [key data] Hin. apply elem_of_map_to_list in Hin.
  assert (key ∈ dom (write_frames FILE.jpg_name dir 0 frames ∅)) as Hdom
    by (apply elem_of_dom; eauto).
  rewrite (dom_write_frames FILE.jpg_name) in Hdom.
  rewrite dom_empty_L, (left_id_L ∅ (∪)) in Hdom.
  apply elem_of_list_to_set, list_elem_of_fmap in Hdom as (j & -> & _).
  apply ends_with_app.
Qed.

(** The part of C1 that holds: a video with at least one frame.  For every
    backend, after [put] of [N ≥ 1] frames that are valid images into a new
    database and [close], [info] returns a report whose counts add up to
    [N]. *)
Lemma info_after_put_total (Image_open : bytes → option image_size) (t : db_type)
    (video_key : string) (clip_tmp_dir : directory) (frame_files : list frame_entry) :
  frame_files ≠ [] →
  Forall (valid_image Image_open clip_tmp_dir) frame_files →
  let after := put (create t) video_key clip_tmp_dir frame_files in
  after.2 = Ok tt
  ∧ ∃ msgs report im,
      storage_info Image_open (close after.1) = (msgs, Ok (report, im))
      ∧ frame_count report = length frame_files.
Proof.
  intros Hne Hvalid. cbv zeta.
  assert (Forall (readable clip_tmp_dir) frame_files) as Hread.
  { eapply Forall_impl; [exact Hvalid|]. intros e. apply valid_image_readable. }
  destruct t; cbn [create put close storage_info].
  - (* HDF5 *)
    unfold HDF5.put. rewrite HDF5_put_loop_readable; [|done|by intros].
    rewrite lookup_empty. cbn [from_option id prod_map fst snd HDF5.close].
    destruct frame_files as [|e0 rest] eqn:Hfr; [done|]. rewrite <-Hfr in *.
    rewrite insert_empty. cbn [close storage_info fst snd]. unfold HDF5.close. split; [done|].
    unfold HDF5_info.
    rewrite map_size_singleton, by_name_singleton. cbn [foldl fst snd].
    rewrite decide_False by done.
    pose proof (written_values_valid Image_open fmt_08d clip_tmp_dir frame_files Hvalid) as Hv.
    rewrite <-by_name_Permutation in Hv.
    destruct (tally_fold_valid (λ kv : string * bytes, video_key +:+ "/" +:+ kv.1)
                (λ kv : string * bytes, Image_open kv.2) _ scan_start Hv)
      as (Ht & Hbound & Hp).
    destruct (scan_return_bound _ (Hbound ltac:(
      intros Hnil; apply (f_equal length) in Hnil;
      rewrite length_by_name, (size_write_frames fmt_08d) in Hnil;
      rewrite Hfr in Hnil; done))) as [im Hret].
    eexists _, _, im. split; [exact Hret|].
    by rewrite Ht, frame_count_scan_start, length_by_name, (size_write_frames fmt_08d).
  - (* LMDB *)
    unfold LMDB.put. rewrite LMDB_put_loop_readable by done.
    cbn [prod_map fst snd close storage_info]. unfold LMDB.close. split; [done|].
    unfold LMDB_info.
    pose proof (written_values_valid Image_open (frame_key video_key)
                  clip_tmp_dir frame_files Hvalid) as Hv.
    rewrite <-by_name_Permutation in Hv.
    destruct (tally_fold_valid (λ kv : string * bytes, kv.1)
                (λ kv : string * bytes, Image_open kv.2) _ scan_start Hv)
      as (Ht & Hbound & Hp).
    destruct (scan_return_bound _ (Hbound ltac:(
      intros Hnil; apply (f_equal length) in Hnil;
      rewrite length_by_name, (size_write_frames (frame_key video_key)) in Hnil;
      by destruct frame_files))) as [im Hret].
    eexists _, _, im. split; [exact Hret|].
    by rewrite Ht, frame_count_scan_start, length_by_name, (size_write_frames (frame_key video_key)).
  - (* FILE *)
    unfold FILE.put, FILE.mkdir. rewrite lookup_empty.
    rewrite FILE_put_loop_readable by done. rewrite lookup_insert_eq.
    cbn [from_option id prod_map fst snd FILE.close].
    destruct frame_files as [|e0 rest] eqn:Hfr; [done|]. rewrite <-Hfr in *.
    rewrite insert_insert_eq, insert_empty.
    cbn [close storage_info fst snd]. unfold FILE.close. split; [done|].
    destruct (FILE_info_singleton Image_open video_key
                (write_frames FILE.jpg_name clip_tmp_dir 0 frame_files ∅))
      as (msgs & report & im & Hinfo & Htotal).
    + apply written_names_jpg.
    + by apply (written_values_valid Image_open FILE.jpg_name).
    + rewrite (size_write_frames FILE.jpg_name), Hfr. done.
    + exists msgs, report, im. split; [exact Hinfo|].
      by rewrite Htotal, (size_write_frames FILE.jpg_name).
  - (* PKL *)
    unfold PKL.put, PKL.mkdir. rewrite lookup_empty.
    rewrite PKL_read_frames_readable by done.
    cbn [prod_map fst snd PKL.close app].
    rewrite insert_insert_eq, insert_empty.
    cbn [close storage_info fst snd]. unfold PKL.close. split; [done|]. unfold PKL_info.
    rewrite map_to_list_singleton. cbn [PKL_scan].
    assert (Forall (λ frame, is_Some (Image_open frame))
              ((λ e : frame_entry, default [] (clip_tmp_dir !! e.2)) <$> frame_files)) as Hv.
    { apply Forall_fmap. eapply Forall_impl; [exact Hvalid|].
      intros e. apply valid_image_opened. }
    destruct (tally_fold_valid (λ _ : bytes, video_key) Image_open _ scan_start Hv)
      as (Ht & Hbound & Hp).
    destruct (scan_return_bound _ (Hbound ltac:(by destruct frame_files))) as [im Hret].
    eexists _, _, im. split; [exact Hret|].
    by rewrite Ht, frame_count_scan_start, length_fmap.
Qed.

(** C1, at a video without frames.  For every backend, after [put] of an
    empty frame list into a new database and [close], [info] does not return
    a report: it raises at [return info, img] because no image was ever
    opened. *)
Theorem info_after_put_nothing (Image_open : bytes → option image_size) (t : db_type)
    (video_key : string) (clip_tmp_dir : directory) :
  ∃ st msgs,
    put (create t) video_key clip_tmp_dir [] = (st, Ok tt)
    ∧ storage_info Image_open (close st) = (msgs, Raise UnboundLocalError).
Proof.
  destruct t; cbn [create put close storage_info].
  - exists (HDF5Storage ∅). eexists. split; reflexivity.
  - exists (LMDBStorage ∅). eexists. split; reflexivity.
  - exists (FileStorage {[video_key := ∅]}).
    unfold FILE.put, FILE.mkdir. rewrite lookup_empty, insert_empty.
    cbn [FILE.put_loop prod_map fst snd].
    cbn [close storage_info]. unfold FILE.close.
    destruct (FILE_info_empty_dir Image_open video_key) as [msgs Hinfo].
    exists msgs. split; [reflexivity | exact Hinfo].
  - exists (PKLStorage {[video_key := Some []]}).
    unfold PKL.put, PKL.mkdir. rewrite lookup_empty.
    cbn [PKL.read_frames prod_map fst snd].
    rewrite insert_insert_eq, insert_empty.
    cbn [close storage_info]. unfold PKL.close. unfold PKL_info.
    rewrite map_to_list_singleton. eexists. split; reflexivity.
Qed.

(** ** The frame loop *)

#[global] Instance frame_le_total : Total frame_le.
Proof.
  intros [f1 n1] [f2 n2]. unfold frame_le. simpl.
  destruct (Z.lt_trichotomy f1 f2) as [?|[->|?]]; [by left; left| |by right; left].
  destruct (total String.le n1 n2); [left | right]; by right.
Qed.

Lemma Qpositive_zero (q : Q) : (q == 0)%Q → Qpositive q = false.
Proof.
  intros Hq. unfold Qpositive.
  destruct (0 ?= q)%Q eqn:Hc; try done.
  apply Qlt_alt in Hc. rewrite Hq in Hc. by apply Qlt_irrefl in Hc.
Qed.

Lemma selected_cons a samples (e : frame_entry) entries :
  selected a samples (e :: entries)
  = if not_selected a samples e.1 then selected a samples entries
    else e :: selected a samples entries.
Proof.
  unfold selected. destruct (not_selected a samples e.1) eqn:Hsel.
  - rewrite filter_cons_False; [done|]. by rewrite Hsel.
  - by rewrite filter_cons_True.
Qed.

Section FrameLoop.

Context (ImageHash : Type) (hash_algorithm : bytes → Z → option ImageHash)
        (hash_sub : ImageHash → ImageHash → Z).

#[local] Abbreviation frame_loop' := (frame_loop ImageHash hash_algorithm hash_sub).
#[local] Abbreviation select_frames' := (select_frames ImageHash hash_algorithm hash_sub).

(** Without duplicate filtering the loop keeps every selected entry and
    never looks at a file. *)
Lemma frame_loop_no_filter a v_dir samples entries : ∀ st,
  Qpositive (no_duplicates a) = false →
  frame_loop' a v_dir samples entries st
  = Ok (mk_frames (hashes st)
          (total_files st + length (selected a samples entries))
          (duplicates st)
          (frame_files st ++ selected a samples entries)).
Proof.
  induction entries as [|[fid name] rest IH]; intros st Hq.
  - destruct st. cbn. by rewrite Nat.add_0_r, app_nil_r.
  - cbn [frame_loop]. rewrite selected_cons. cbn [fst].
    destruct (not_selected a samples fid); [by apply IH|].
    rewrite Hq, IH by done. cbn [hashes total_files duplicates frame_files length].
    by rewrite <-app_assoc, Nat.add_succ_r.
Qed.

Lemma near_any_Exists a h hs :
  near_any ImageHash hash_sub a h hs = true
  ↔ Exists (λ h2, hash_sub h h2 ≤ diff_limit a) hs.
Proof.
  induction hs as [|h2 hs IH]; simpl.
  - split; [done | by intros ?%Exists_nil].
  - rewrite Exists_cons. case_decide; [naive_solver|]. rewrite IH. naive_solver.
Qed.

Lemma spec_duplicate_filter_length limit fp candidates : ∀ accepted,
  (length (spec_duplicate_filter ImageHash hash_sub limit fp candidates accepted).1
   ≤ length candidates)%nat.
Proof.
  induction candidates as [|e rest IH]; intros accepted; simpl; [done|].
  case_decide.
  - specialize (IH accepted). lia.
  - specialize (IH (accepted ++ [fp e])).
    destruct (spec_duplicate_filter _ _ _ _ _ _) as [kept acc]. simpl in *. lia.
Qed.

(** With duplicate filtering the loop is the filter of the specification
    run over the selected entries in directory order. *)
Lemma frame_loop_filter a v_dir samples (fp : frame_entry → ImageHash) entries : ∀ st,
  Qpositive (no_duplicates a) = true →
  Forall (λ e, fingerprint ImageHash hash_algorithm a v_dir e = Some (fp e))
    (selected a samples entries) →
  let sel := selected a samples entries in
  let out := spec_duplicate_filter ImageHash hash_sub (diff_limit a) fp sel (hashes st) in
  frame_loop' a v_dir samples entries st
  = Ok (mk_frames out.2
          (total_files st + length sel)
          (duplicates st + (length sel - length out.1))
          (frame_files st ++ out.1)).
Proof.
  induction entries as [|[fid name] rest IH]; intros st Hq Hfp.
  - destruct st. cbn. by rewrite !Nat.add_0_r, app_nil_r.
  - cbn zeta in *. cbn [frame_loop]. rewrite selected_cons in *. cbn [fst] in *.
    destruct (not_selected a samples fid); [by apply IH|].
    apply Forall_cons in Hfp as [Hh Hrest]. rewrite Hq.
    unfold detect_duplicate, read_file.
    unfold fingerprint in Hh. cbn [snd] in Hh.
    destruct (v_dir !! name) as [data|]; [|done]. cbn [mbind option_bind] in Hh.
    rewrite Hh. cbn [spec_duplicate_filter].
    destruct (near_any ImageHash hash_sub a (fp (fid, name)) (hashes st)) eqn:Hnear.
    + apply near_any_Exists in Hnear. rewrite decide_True by done.
      rewrite IH by done. cbn [hashes total_files duplicates frame_files length].
      pose proof (spec_duplicate_filter_length (diff_limit a) fp
                    (selected a samples rest) (hashes st)).
      f_equal. f_equal; lia.
    + rewrite decide_False; [|by rewrite <-near_any_Exists, Hnear].
      rewrite IH by done. cbn [hashes total_files duplicates frame_files].
      pose proof (spec_duplicate_filter_length (diff_limit a) fp
                    (selected a samples rest) (hashes st ++ [fp (fid, name)])).
      destruct (spec_duplicate_filter _ _ _ _ _ _) as [kept acc].
      cbn [fst snd length] in *. rewrite <-app_assoc. f_equal. f_equal; lia.
Qed.

End FrameLoop.

Section Selection.

Context (ImageHash : Type) (hash_algorithm : bytes → Z → option ImageHash)
        (hash_sub : ImageHash → ImageHash → Z).

#[local] Abbreviation frame_loop' := (frame_loop ImageHash hash_algorithm hash_sub).
#[local] Abbreviation select_frames' := (select_frames ImageHash hash_algorithm hash_sub).

Lemma select_frames_no_filter a v_dir entries samples :
  Qpositive (no_duplicates a) = false →
  sample_ids a (entries.*1) = Ok samples →
  select_frames' a v_dir entries
  = Ok (mk_frames [] (length (selected a samples entries)) O
          (merge_sort frame_le (selected a samples entries))).
Proof.
  intros Hq Hs. unfold select_frames. rewrite Hs.
  by rewrite (frame_loop_no_filter _ hash_algorithm hash_sub) by done.
Qed.

(** C9.  With the similarity threshold 0 the duplicate filter is not run:
    whatever the fingerprint engine would answer, and even when it could
    not open a single file, the loop ends normally with every selected
    entry kept in directory order, no fingerprint computed and no
    duplicate counted; the list handed to storage is that list sorted. *)
Theorem threshold_zero_bypasses_filter (a : args) (v_dir : directory)
    (entries : list frame_entry) (samples : option (gset Z)) :
  (no_duplicates a == 0)%Q →
  sample_ids a (entries.*1) = Ok samples →
  frame_loop ImageHash hash_algorithm hash_sub a v_dir samples entries
    (mk_frames [] O O [])
  = Ok (mk_frames [] (length (selected a samples entries)) O (selected a samples entries))
  ∧ select_frames ImageHash hash_algorithm hash_sub a v_dir entries
    = Ok (mk_frames [] (length (selected a samples entries)) O
            (merge_sort frame_le (selected a samples entries)))
  ∧ merge_sort frame_le (selected a samples entries) ≡ₚ selected a samples entries.
Proof.
  intros Hq%Qpositive_zero Hs. split; [|split].
  - by rewrite (frame_loop_no_filter _ hash_algorithm hash_sub).
  - by apply select_frames_no_filter.
  - apply merge_sort_Permutation.
Qed.

Lemma sample_ids_off a ids : num_frame a ≤ 0 → sample_ids a ids = Ok None.
Proof. intros Hn. unfold sample_ids. by rewrite decide_False by lia. Qed.

Lemma not_selected_skip a f :
  not_selected a None f = false ↔ skip a ≤ 1 ∨ spec_skip_retains (skip a) f.
Proof.
  unfold not_selected, spec_skip_retains. case_decide as Hk.
  - rewrite negb_false_iff, Z.eqb_eq. split; [by right | intros [?|?]; [lia|done]].
  - split; [intros _; left; lia | done].
Qed.


End Selection.

(** ** Uniform sampling *)

Lemma foldl_min_spec (l : list Z) : ∀ x,
  (foldl Z.min x l = x ∨ foldl Z.min x l ∈ l)
  ∧ foldl Z.min x l ≤ x ∧ Forall (λ y, foldl Z.min x l ≤ y) l.
Proof.
  induction l as [|y l IH]; intros x; simpl.
  - split; [by left | split; [lia | constructor]].
  - destruct (IH (Z.min x y)) as (Hin & Hle & Hall). split; [|split].
    + destruct Hin as [Heq|Hin]; [|right; by right].
      rewrite Heq. destruct (Z.min_spec x y) as [[_ ->]|[_ ->]]; [by left | right; left].
    + lia.
    + constructor; [lia | done].
Qed.

Lemma foldl_max_spec (l : list Z) : ∀ x,
  (foldl Z.max x l = x ∨ foldl Z.max x l ∈ l)
  ∧ x ≤ foldl Z.max x l ∧ Forall (λ y, y ≤ foldl Z.max x l) l.
Proof.
  induction l as [|y l IH]; intros x; simpl.
  - split; [by left | split; [lia | constructor]].
  - destruct (IH (Z.max x y)) as (Hin & Hle & Hall). split; [|split].
    + destruct Hin as [Heq|Hin]; [|right; by right].
      rewrite Heq. destruct (Z.max_spec x y) as [[_ ->]|[_ ->]]; [right; left | by left].
    + lia.
    + constructor; [lia | done].
Qed.

Lemma py_min_spec (ids : list Z) :
  ids ≠ [] → ∃ lo, py_min ids = Ok lo ∧ lo ∈ ids ∧ Forall (λ y, lo ≤ y) ids.
Proof.
  destruct ids as [|x l]; [done|]. intros _. eexists. split; [done|].
  destruct (foldl_min_spec l x) as (Hin & Hle & Hall). split.
  - destruct Hin as [->|Hin]; [left | by right].
  - by constructor.
Qed.

Lemma py_max_spec (ids : list Z) :
  ids ≠ [] → ∃ hi, py_max ids = Ok hi ∧ hi ∈ ids ∧ Forall (λ y, y ≤ hi) ids.
Proof.
  destruct ids as [|x l]; [done|]. intros _. eexists. split; [done|].
  destruct (foldl_max_spec l x) as (Hin & Hle & Hall). split.
  - destruct Hin as [->|Hin]; [left | by right].
  - by constructor.
Qed.

Lemma linspace_point (lo hi n i : Z) :
  0 ≤ i < n →
  (if decide (0 < n - 1)
   then (if decide (i = n - 1) then hi else lo + (i * (hi - lo)) `div` (n - 1))
   else lo)
  = floor_point lo hi n i.
Proof.
  intros Hi. unfold floor_point. repeat case_decide; try lia; try done.
  subst i. rewrite Z.mul_comm, Z.div_mul by lia. lia.
Qed.

Lemma elem_of_linspace_int32 (lo hi n x : Z) :
  0 < n →
  x ∈ linspace_int32 lo hi n ↔ ∃ i, 0 ≤ i < n ∧ x = floor_point lo hi n i.
Proof.
  intros Hn. unfold linspace_int32. rewrite list_elem_of_fmap.
  setoid_rewrite elem_of_seqZ.
  split.
  - intros (i & -> & Hi). exists i. split; [lia|]. apply linspace_point. lia.
  - intros (i & Hi & ->). exists i. split; [|lia]. symmetry. by apply linspace_point.
Qed.

Lemma size_list_to_set_le (l : list Z) : (size (list_to_set l : gset Z) ≤ length l)%nat.
Proof.
  unfold size, set_size. simpl. apply submseteq_length, NoDup_submseteq.
  - apply NoDup_elements.
  - intros x. by rewrite elem_of_elements, elem_of_list_to_set.
Qed.

Lemma length_linspace_int32 (lo hi n : Z) : length (linspace_int32 lo hi n) = Z.to_nat n.
Proof. unfold linspace_int32. by rewrite length_fmap, length_seqZ. Qed.

Lemma floor_point_range (lo hi n i : Z) :
  lo ≤ hi → 0 ≤ i < n → lo ≤ floor_point lo hi n i ≤ hi.
Proof.
  intros Hle Hi. unfold floor_point. case_decide; [lia|].
  assert (0 ≤ (i * (hi - lo)) `div` (n - 1)) by (apply Z.div_pos; nia).
  assert ((i * (hi - lo)) `div` (n - 1) ≤ hi - lo).
  { apply Z.div_le_upper_bound; nia. }
  lia.
Qed.

Example linspace_1_6_4 : linspace_int32 1 6 4 = [1; 2; 4; 6].
Proof. reflexivity. Qed.

Example spec_uniform_1_6_4 : spec_uniform_ids 1 6 4 = [1; 3; 4; 6].
Proof. reflexivity. Qed.

Section Uniform.

Context (ImageHash : Type) (hash_algorithm : bytes → Z → option ImageHash)
        (hash_sub : ImageHash → ImageHash → Z).


End Uniform.

(** ** The duplicate filter *)

#[global] Instance frame_le_trans : Transitive frame_le.
Proof.
  intros [f1 n1] [f2 n2] [f3 n3]. unfold frame_le. simpl.
  intros [?|[-> H12]] [?|[-> H23]]; [left; lia | by left | by left |].
  right. split; [done|]. by etrans.
Qed.

#[global] Instance frame_le_antisym : AntiSymm (=) frame_le.
Proof.
  intros [f1 n1] [f2 n2]. unfold frame_le. simpl.
  intros [?|[-> H12]] [?|[? H21]]; try lia.
  f_equal. by apply (anti_symm String.le).
Qed.

Lemma merge_sort_sorted_id (l : list frame_entry) :
  Sorted frame_le l → merge_sort frame_le l = l.
Proof.
  intros Hl. apply (Sorted_unique frame_le); [|done|apply merge_sort_Permutation].
  apply (Sorted_merge_sort _).
Qed.

Lemma StronglySorted_sublist {A} (R : relation A) (l1 l2 : list A) :
  l1 `sublist_of` l2 → StronglySorted R l2 → StronglySorted R l1.
Proof.
  induction 1 as [|x l1 l2 Hsub IH|x l1 l2 Hsub IH]; intros Hs; [done|..].
  - apply StronglySorted_inv in Hs as [Hs Hall]. constructor; [by apply IH|].
    rewrite Forall_forall in Hall |- *. intros y Hy. apply Hall.
    by eapply elem_of_sublist.
  - apply StronglySorted_inv in Hs as [Hs _]. by apply IH.
Qed.

Section DuplicateFilter.

Context (ImageHash : Type) (hash_algorithm : bytes → Z → option ImageHash)
        (hash_sub : ImageHash → ImageHash → Z).

#[local] Abbreviation spec_filter := (spec_duplicate_filter ImageHash hash_sub).

Lemma spec_duplicate_filter_sublist limit fp candidates : ∀ accepted,
  (spec_filter limit fp candidates accepted).1 `sublist_of` candidates.
Proof.
  induction candidates as [|e rest IH]; intros accepted; simpl; [done|].
  case_decide.
  - by apply sublist_cons.
  - specialize (IH (accepted ++ [fp e])).
    destruct (spec_duplicate_filter _ _ _ _ _ _) as [kept acc].
    by apply sublist_skip.
Qed.

(** The two outcomes of one candidate in the loop. *)
Lemma frame_loop_duplicate a v_dir samples fid name rest st data h :
  not_selected a samples fid = false →
  Qpositive (no_duplicates a) = true →
  v_dir !! name = Some data →
  hash_algorithm data (hash_size a) = Some h →
  Exists (λ h2, hash_sub h h2 ≤ diff_limit a) (hashes st) →
  frame_loop ImageHash hash_algorithm hash_sub a v_dir samples ((fid, name) :: rest) st
  = frame_loop ImageHash hash_algorithm hash_sub a v_dir samples rest
      (mk_frames (hashes st) (S (total_files st)) (S (duplicates st)) (frame_files st)).
Proof.
  intros Hsel Hq Hd Hh Hnear. cbn [frame_loop]. rewrite Hsel, Hq.
  unfold detect_duplicate, read_file. rewrite Hd, Hh.
  by rewrite (proj2 (near_any_Exists _ hash_sub a h (hashes st)) Hnear).
Qed.

Lemma frame_loop_accept a v_dir samples fid name rest st data h :
  not_selected a samples fid = false →
  Qpositive (no_duplicates a) = true →
  v_dir !! name = Some data →
  hash_algorithm data (hash_size a) = Some h →
  Forall (λ h2, diff_limit a < hash_sub h h2) (hashes st) →
  frame_loop ImageHash hash_algorithm hash_sub a v_dir samples ((fid, name) :: rest) st
  = frame_loop ImageHash hash_algorithm hash_sub a v_dir samples rest
      (mk_frames (hashes st ++ [h]) (S (total_files st)) (duplicates st)
         (frame_files st ++ [(fid, name)])).
Proof.
  intros Hsel Hq Hd Hh Hfar. cbn [frame_loop]. rewrite Hsel, Hq.
  unfold detect_duplicate, read_file. rewrite Hd, Hh.
  destruct (near_any _ _ _ _ _) eqn:Hnear; [|done].
  apply near_any_Exists, Exists_exists in Hnear as (h2 & Hin & Hle).
  rewrite Forall_forall in Hfar. specialize (Hfar h2 Hin). lia.
Qed.

Lemma diff_limit_099_8 (skip num_frame : Z) (interval : Q) :
  diff_limit (mk_args skip num_frame interval (99 # 100) 8) = 1.
Proof. reflexivity. Qed.


End DuplicateFilter.

(** ** Facts about the loop over the videos *)

Section Videos.

Context (ImageHash : Type) (hash_algorithm : bytes → Z → option ImageHash)
        (hash_sub : ImageHash → ImageHash → Z).

#[local] Abbreviation process_video' := (process_video ImageHash hash_algorithm hash_sub).
#[local] Abbreviation process_videos' := (process_videos ImageHash hash_algorithm hash_sub).
#[local] Abbreviation select_frames' := (select_frames ImageHash hash_algorithm hash_sub).

Lemma done_videos_say m st : done_videos (say m st) = done_videos st.
Proof. done. Qed.

(** A key is added to [done_videos] by the iterations that reach [put]
    and come back from it, and by no other. *)
Lemma process_video_done a vid st st' :
  process_video' a vid st = (st', Ok tt) →
  done_videos st ⊆ done_videos st'
  ∧ (skipped a vid = false → video_key vid ∈ done_videos st')
  ∧ (skipped a vid = true → done_videos st' = done_videos st).
Proof.
  unfold process_video, skipped.
  set (st1 := if decide (video_key vid ∈ done_videos st) then _ else st).
  assert (done_videos st1 = done_videos st) as Hst1
    by (subst st1; by case_decide).
  destruct (Qpositive (interval a) && Qeq_bool (r_frame_rate vid) 0).
  { intros [= <-]. rewrite done_videos_say, Hst1. by repeat split. }
  destruct (select_frames _ _ _ _ _ _) as [fs|e]; [|done].
  destruct (put _ _ _ _) as [db [[]|e]]; [|done].
  destruct (Qpositive (no_duplicates a)).
  - case_decide; [done|]. intros [= <-].
    rewrite done_videos_say. cbn [done_videos]. rewrite Hst1. set_solver.
  - intros [= <-]. cbn [done_videos]. rewrite Hst1. set_solver.
Qed.

Lemma process_videos_done a vids : ∀ st st',
  process_videos' a vids st = (st', Ok tt) → done_videos st ⊆ done_videos st'.
Proof.
  induction vids as [|vid rest IH]; intros st st'; cbn [process_videos].
  - by intros [= <-].
  - destruct (process_video _ _ _ a vid st) as [st1 [[]|e]] eqn:Hvid; [|done].
    intros Hrest. apply process_video_done in Hvid as [Hsub _].
    apply IH in Hrest. set_solver.
Qed.

Lemma process_videos_app a vids1 vids2 : ∀ st,
  process_videos' a (vids1 ++ vids2) st
  = match process_videos' a vids1 st with
    | (st1, Ok _) => process_videos' a vids2 st1
    | (st1, Raise e) => (st1, Raise e)
    end.
Proof.
  induction vids1 as [|vid rest IH]; intros st; cbn [process_videos app]; [done|].
  destruct (process_video _ _ _ a vid st) as [st1 [[]|e]]; [apply IH | done].
Qed.

(** What an iteration does for a key that is in [done_videos]. *)
Lemma process_video_seen a vid st :
  video_key vid ∈ done_videos st →
  (∃ more, stdout (process_video' a vid st).1
           = stdout st ++ SeenBefore (video_key vid) :: more)
  ∧ (skipped a vid = false →
     ∀ fs, select_frames' a (v_dir vid) (v_entries vid) = Ok fs →
           frame_db (process_video' a vid st).1
           = (put (frame_db st) (video_key vid) (v_dir vid) (frame_files fs)).1).
Proof.
  intros Hseen. unfold process_video, skipped. rewrite decide_True by done.
  assert (∀ l (m : message) more', (l ++ [m]) ++ more' = l ++ m :: more') as Happ
    by (intros; by rewrite <-app_assoc).
  destruct (Qpositive (interval a) && Qeq_bool (r_frame_rate vid) 0).
  { split; [|done]. eexists. cbn. apply Happ. }
  destruct (select_frames _ _ _ _ _ _) as [fs|e].
  - cbn [frame_db say].
    destruct (put _ _ _ _) as [db [[]|e]] eqn:Hput.
    + destruct (Qpositive (no_duplicates a)); [case_decide|].
      * split; [by exists [] | intros _ ? [= <-]; by rewrite Hput].
      * split; [|intros _ ? [= <-]; by rewrite Hput]. eexists. cbn. apply Happ.
      * split; [by exists [] | intros _ ? [= <-]; by rewrite Hput].
    + split; [by exists [] | intros _ ? [= <-]; by rewrite Hput].
  - split; [by exists [] | done].
Qed.


End Videos.

(** ** The properties at concrete inputs *)

(** Settle a decidable proposition about closed terms by evaluation. *)
Ltac by_evaluation :=
  lazymatch goal with
  | |- ?P => apply (bool_decide_unpack P); vm_compute; exact I
  end.

(** The round trip of the specification: five 2×2 frames, plain files. *)
Example info_after_put_five_files :
  storage_info Toy.Image_open
    (close (put (create DB_FILE) "clip" Toy.five_frames Toy.ascending).1)
  = ([], Ok ({[(2, 2) := 5%nat]}, (2, 2))).
Proof. vm_compute. reflexivity. Qed.

Example info_after_put_nothing_hdf5 :
  storage_info Toy.Image_open (close (put (create DB_HDF5) "clip" Toy.five_frames []).1)
  = ([NoVideoFramesFound], Raise UnboundLocalError).
Proof. vm_compute. reflexivity. Qed.

(** A directory named [*.jpg] is matched by the glob, cannot be read as an
    image, and leaves the counts as they are. *)
Example info_after_put_jpg_key :
  storage_info Toy.Image_open
    (close (put (create DB_FILE) "clip.jpg" Toy.five_frames Toy.ascending).1)
  = ([ReadingFailed "clip.jpg"], Ok ({[(2, 2) := 5%nat]}, (2, 2))).
Proof. vm_compute. reflexivity. Qed.


Example LMDB_put_missing_file :
  LMDB.put (LMDB.put ∅ "clip" Toy.five_frames Toy.ascending).1 "other" Toy.five_frames
    [(1, "00000001.jpg"); (2, "missing.jpg")]
  = ((LMDB.put ∅ "clip" Toy.five_frames Toy.ascending).1, Raise FileNotFoundError).
Proof. vm_compute. reflexivity. Qed.

(** Without a transaction the frames written before the failure stay. *)
Example HDF5_put_missing_file :
  HDF5.put ∅ "other" Toy.five_frames [(1, "00000001.jpg"); (2, "missing.jpg")]
  = ({["other" := {["00000000" := Toy.solid Byte.x00]}]}, Raise FileNotFoundError).
Proof. vm_compute. reflexivity. Qed.

Lemma HDF5_init_exclusive_witness :
  (∅ : gmap string HDF5.file) !! "frames.h5" = None
  ∧ ∃ fs1 h, HDF5.init ∅ "frames.h5" = (fs1, Ok h)
      ∧ HDF5.init fs1 "frames.h5" = (fs1, Raise FileExistsError)
      ∧ ∀ fs2 content, fs2 !! "frames.h5" = Some content →
          HDF5.init fs2 "frames.h5" = (fs2, Raise FileExistsError).
Proof.
  assert ((∅ : gmap string HDF5.file) !! "frames.h5" = None) as H1 by reflexivity.
  split; [exact H1|]. exact (HDF5_init_exclusive ∅ "frames.h5" H1).
Defined.

Lemma threshold_zero_bypasses_filter_witness :
  (no_duplicates Toy.default_args == 0)%Q
  ∧ sample_ids Toy.default_args (Toy.ascending.*1) = Ok None
  ∧ frame_loop (list bool) Toy.no_engine Toy.hash_sub Toy.default_args
      Toy.five_frames None Toy.ascending (mk_frames [] O O [])
    = Ok (mk_frames [] 5 O Toy.ascending).
Proof.
  assert (no_duplicates Toy.default_args == 0)%Q as H1 by reflexivity.
  assert (sample_ids Toy.default_args (Toy.ascending.*1) = Ok None) as H2 by reflexivity.
  split; [exact H1|]. split; [exact H2|].
  exact (proj1 (threshold_zero_bypasses_filter (list bool) Toy.no_engine Toy.hash_sub
                  Toy.default_args Toy.five_frames Toy.ascending None H1 H2)).
Defined.

(** With the filter run at threshold 0 as a distance check, the limit would
    be [s²] and every frame after the first would be dropped. *)
Example diff_limit_at_zero : diff_limit Toy.default_args = 64.
Proof. reflexivity. Qed.


Example skip_2_keeps_odd_frames :
  select_frames (list bool) Toy.hash_algorithm Toy.hash_sub Toy.skip_2
    Toy.five_frames Toy.ascending
  = Ok (mk_frames [] 3 0 [(1, "00000001.jpg"); (3, "00000003.jpg"); (5, "00000005.jpg")]).
Proof. vm_compute. reflexivity. Qed.




Example uniform_one_frame :
  select_frames (list bool) Toy.hash_algorithm Toy.hash_sub (mk_args 1 1 0 0 8)
    Toy.six_frames Toy.six_entries
  = Ok (mk_frames [] 1 0 [(1, "00000001.jpg")]).
Proof. vm_compute. reflexivity. Qed.

(** More points than ids: the points collapse. *)
Example uniform_more_points_than_frames :
  select_frames (list bool) Toy.hash_algorithm Toy.hash_sub (mk_args 1 9 0 0 8)
    Toy.five_frames (firstn 3 Toy.ascending)
  = Ok (mk_frames [] 3 0 (firstn 3 Toy.ascending)).
Proof. vm_compute. reflexivity. Qed.

Example select_frames_empty_directory :
  select_frames (list bool) Toy.hash_algorithm Toy.hash_sub Toy.uniform_4 ∅ []
  = Raise ValueError.
Proof. reflexivity. Qed.



(** The same video twice, default options, LMDB: the notice is printed and the
    run ends normally. *)
Example clip_twice_lmdb :
  let after := process_videos (list bool) Toy.hash_algorithm Toy.hash_sub
                 Toy.default_args [Toy.clip; Toy.clip] (run_start (create DB_LMDB)) in
  stdout after.1 = [SeenBefore "clip"] ∧ after.2 = Ok tt.
Proof. vm_compute. done. Qed.

(** The same on HDF5: the notice is printed, [put] is called again, and
    this second [put] fails because the names exist. *)
Example clip_twice_hdf5 :
  let after := process_videos (list bool) Toy.hash_algorithm Toy.hash_sub
                 Toy.default_args [Toy.clip; Toy.clip] (run_start (create DB_HDF5)) in
  stdout after.1 = [SeenBefore "clip"] ∧ after.2 = Raise NameExistsError.
Proof. vm_compute. done. Qed.

(** Three times on HDF5: the second [put] ends the run, and the third
    occurrence is never reached. *)
Example clip_thrice_hdf5 :
  let after := process_videos (list bool) Toy.hash_algorithm Toy.hash_sub
                 Toy.default_args [Toy.clip; Toy.clip; Toy.clip]
                 (run_start (create DB_HDF5)) in
  stdout after.1 = [SeenBefore "clip"] ∧ after.2 = Raise NameExistsError.
Proof. vm_compute. done. Qed.



(** ** More about the stores *)

Lemma mkdir_lookup (r : FILE.root) (video_key d : string) :
  default ∅ (FILE.mkdir r video_key !! d) = default ∅ (r !! d).
Proof.
  unfold FILE.mkdir. destruct (r !! video_key) eqn:Hr; [done|].
  destruct (decide (video_key = d)) as [<-|Hne].
  - by rewrite lookup_insert_eq, Hr.
  - by rewrite lookup_insert_ne.
Qed.

Lemma mkdir_lookup_ne (r : FILE.root) (video_key d : string) :
  d ≠ video_key → FILE.mkdir r video_key !! d = r !! d.
Proof.
  intros Hne. unfold FILE.mkdir. destruct (r !! video_key); [done|].
  by rewrite lookup_insert_ne.
Qed.

Lemma file_at_default (r : FILE.root) (video_key name : string) :
  file_at r video_key name = default ∅ (r !! video_key) !! name.
Proof. unfold file_at. by destruct (r !! video_key). Qed.

(** [FileStorage.put] copies the source file of the entry at position [i]
    to [video_key/i.jpg] (eight digits), byte for byte.  It touches nothing
    else: the other sub-directories, and the files of [video_key] under
    other names (such as the frames of an earlier, longer [put] for the same
    key), are what they were. *)
Theorem FILE_put_copies (r : FILE.root) (video_key : string) (clip_tmp_dir : directory)
    (frame_files : list frame_entry) :
  Forall (readable clip_tmp_dir) frame_files →
  ∃ r', FILE.put r video_key clip_tmp_dir frame_files = (r', Ok tt)
    ∧ (∀ i e, frame_files !! i = Some e →
              file_at r' video_key (FILE.jpg_name i) = clip_tmp_dir !! e.2)
    ∧ (∀ name, (∀ i, (i < length frame_files)%nat → name ≠ FILE.jpg_name i) →
               file_at r' video_key name = file_at r video_key name)
    ∧ (∀ d, d ≠ video_key → r' !! d = r !! d).
Proof.
  intros Hall. unfold FILE.put. rewrite FILE_put_loop_readable by done.
  eexists. split; [done|]. rewrite !mkdir_lookup.
  destruct frame_files as [|e0 rest] eqn:Hfr.
  { split; [done|]. split; [|by intros; apply mkdir_lookup_ne].
    intros name _. by rewrite !file_at_default, mkdir_lookup. }
  rewrite <-Hfr in *. split; [|split].
  - intros i e Hi. rewrite file_at_default, lookup_insert_eq. cbn [from_option id].
    rewrite (write_frames_lookup FILE.jpg_name _ _ 0 _ i e Hi).
    symmetry. apply readable_lookup. rewrite Forall_forall in Hall.
    apply Hall. by eapply list_elem_of_lookup_2.
  - intros name Hname. rewrite !file_at_default, lookup_insert_eq. cbn [from_option id].
    by apply (write_frames_other FILE.jpg_name).
  - intros d Hd. rewrite lookup_insert_ne by done. by apply mkdir_lookup_ne.
Qed.

(** [PKLStorage.put] stores the contents of the source files as one list,
    in the order of [frame_files], and replaces whatever list was stored
    for [video_key] before; the other videos are untouched. *)
Theorem PKL_put_stores_list (r : PKL.root) (video_key : string) (clip_tmp_dir : directory)
    (frame_files : list frame_entry) :
  Forall (readable clip_tmp_dir) frame_files →
  ∃ r', PKL.put r video_key clip_tmp_dir frame_files = (r', Ok tt)
    ∧ r' !! video_key = Some (Some (content clip_tmp_dir <$> frame_files))
    ∧ (∀ d, d ≠ video_key → r' !! d = r !! d).
Proof.
  intros Hall. unfold PKL.put. rewrite PKL_read_frames_readable by done.
  eexists. split; [done|]. split; [by rewrite lookup_insert_eq|].
  intros d Hd. rewrite lookup_insert_ne by done. unfold PKL.mkdir.
  destruct (r !! video_key); [done|]. by rewrite lookup_insert_ne.
Qed.

Lemma HDF5_put_loop_app vk dir l1 l2 : ∀ k f,
  HDF5.put_loop vk dir k (l1 ++ l2) f
  = match HDF5.put_loop vk dir k l1 f with
    | (f1, Ok _) => HDF5.put_loop vk dir (k + length l1) l2 f1
    | (f1, Raise e) => (f1, Raise e)
    end.
Proof.
  induction l1 as [|[fid p] l1 IH]; intros k f; cbn [app HDF5.put_loop length].
  - by rewrite Nat.add_0_r.
  - destruct (read_file dir p) as [data|e]; [|done].
    destruct (HDF5.set_item f vk (fmt_08d k) data) as [f'|e]; [|done].
    rewrite IH. by replace (S k + length l1)%nat with (k + S (length l1))%nat by lia.
Qed.

Lemma HDF5_put_fresh (f : HDF5.file) vk dir frames :
  f !! vk = None →
  Forall (readable dir) frames →
  HDF5.put f vk dir frames
  = (match frames with
     | [] => f
     | _ => <[vk := write_frames fmt_08d dir 0 frames ∅]> f
     end, Ok tt).
Proof.
  intros Hf Hall. unfold HDF5.put.
  rewrite HDF5_put_loop_readable; [by rewrite Hf|done|].
  intros i _. by rewrite Hf.
Qed.

Lemma HDF5_get_written (f : HDF5.file) vk dir frames i e :
  Forall (readable dir) frames →
  frames !! i = Some e →
  HDF5.get (<[vk := write_frames fmt_08d dir 0 frames ∅]> f) vk (fmt_08d i)
  = dir !! e.2.
Proof.
  intros Hall Hi. unfold HDF5.get. rewrite lookup_insert_eq. cbn [mbind option_bind].
  rewrite (write_frames_lookup fmt_08d _ _ 0 ∅ i e Hi).
  symmetry. apply readable_lookup. rewrite Forall_forall in Hall.
  apply Hall. by eapply list_elem_of_lookup_2.
Qed.



(** A second [LMDBStorage.put] for the same video overwrites frame by
    frame: the positions of the new list hold the new frames, and the
    frames of the first list at the positions beyond the new list stay in
    the database. *)
Theorem LMDB_put_again_overwrites (db : LMDB.env) (video_key : string)
    (dir1 dir2 : directory) (frames1 frames2 : list frame_entry) :
  Forall (readable dir1) frames1 →
  Forall (readable dir2) frames2 →
  ∃ db1 db2,
    LMDB.put db video_key dir1 frames1 = (db1, Ok tt)
    ∧ LMDB.put db1 video_key dir2 frames2 = (db2, Ok tt)
    ∧ (∀ i e, frames2 !! i = Some e → db2 !! frame_key video_key i = dir2 !! e.2)
    ∧ (∀ i e, frames1 !! i = Some e → (length frames2 ≤ i)%nat →
              db2 !! frame_key video_key i = dir1 !! e.2).
Proof.
  intros Hall1 Hall2. unfold LMDB.put.
  rewrite (LMDB_put_loop_readable video_key dir1 frames1) by done.
  eexists _, _. split; [done|].
  rewrite (LMDB_put_loop_readable video_key dir2 frames2) by done.
  split; [done|]. split.
  - intros i e Hi.
    rewrite (write_frames_lookup (frame_key video_key) _ _ 0 _ i e Hi).
    symmetry. apply readable_lookup. rewrite Forall_forall in Hall2.
    apply Hall2. by eapply list_elem_of_lookup_2.
  - intros i e Hi Hlen. rewrite (write_frames_other (frame_key video_key)).
    + rewrite (write_frames_lookup (frame_key video_key) _ _ 0 _ i e Hi).
      symmetry. apply readable_lookup. rewrite Forall_forall in Hall1.
      apply Hall1. by eapply list_elem_of_lookup_2.
    + intros j Hj Heq. apply (inj (frame_key video_key)) in Heq. lia.
Qed.

(** ** Scans with frames that do not open *)

Section TallyScan.

Context {A : Type} (what : A → string) (opened : A → option image_size).

#[local] Abbreviation scan_step := (λ (s : scan) (x : A), tally (what x) (opened x) s).

Lemma tally_scan (l : list A) : ∀ s,
  frame_count (info (foldl scan_step s l))
  = (frame_count (info s) + length (opened_sizes opened l))%nat
  ∧ (∀ sz, default O (info (foldl scan_step s l) !! sz)
           = (default O (info s !! sz)
              + length (filter (λ z, z = sz) (opened_sizes opened l)))%nat)
  ∧ img (foldl scan_step s l)
    = match last (opened_sizes opened l) with Some im => Some im | None => img s end
  ∧ printed (foldl scan_step s l)
    = printed s ++ ((λ x, ReadingFailed (what x)) <$> filter (λ x, opened x = None) l).
Proof.
  unfold opened_sizes.
  induction l as [|x l IH]; intros s.
  - cbn. rewrite app_nil_r. repeat split; try done; intros; lia.
  - cbn [foldl]. destruct (IH (tally (what x) (opened x) s)) as (Hc & Hsz & Himg & Hp).
    rewrite Hc, Himg, Hp. cbn [omap list_omap].
    destruct (opened x) as [sz0|] eqn:Hx; cbn [tally info img printed print].
    + rewrite frame_count_tally. cbn [length].
      rewrite filter_cons_False by (by rewrite Hx).
      split; [lia|]. split; [|split; [|done]].
      * intros sz. rewrite Hsz. cbn [tally info].
        destruct (decide (sz0 = sz)) as [->|Hne].
        -- rewrite lookup_insert_eq, filter_cons_True by done. cbn. lia.
        -- rewrite lookup_insert_ne, filter_cons_False by done. done.
      * destruct (omap opened l) as [|y l'] eqn:Hl; [done|].
        change (last (sz0 :: y :: l')) with (last (y :: l')).
        destruct (last (y :: l')) eqn:Hlast; [done|].
        by apply last_None in Hlast.
    + rewrite filter_cons_True by done. cbn [fmap list_fmap].
      split; [done|]. split; [|split; [done|]].
      * intros sz. by rewrite Hsz.
      * cbn [tally print printed]. by rewrite <-app_assoc.
Qed.

End TallyScan.

(** [LMDBStorage.info] goes on after a frame that does not open as an
    image: it prints one line for each such key, in key order, and counts
    the others by size.  It returns the counts with the last image that
    opened, and raises exactly when no stored value opens as an image. *)
Theorem LMDB_info_skips_bad_frames (Image_open : bytes → option image_size)
    (db : LMDB.env) :
  let sizes := opened_sizes (λ kv : string * bytes, Image_open kv.2) (by_name db) in
  (LMDB_info Image_open db).1
  = (λ kv : string * bytes, ReadingFailed kv.1)
      <$> filter (λ kv, Image_open kv.2 = None) (by_name db)
  ∧ match last sizes with
    | None => (LMDB_info Image_open db).2 = Raise UnboundLocalError
    | Some im =>
        ∃ report, (LMDB_info Image_open db).2 = Ok (report, im)
          ∧ frame_count report = length sizes
          ∧ ∀ sz, default O (report !! sz) = length (filter (λ z, z = sz) sizes)
    end.
Proof.
  cbv zeta. unfold LMDB_info, scan_return.
  destruct (tally_scan (λ kv : string * bytes, kv.1)
              (λ kv : string * bytes, Image_open kv.2) (by_name db) scan_start)
    as (Hc & Hsz & Himg & Hp).
  cbn [fst snd]. rewrite Hp, Himg. split; [done|].
  destruct (last _) as [im|]; [|done].
  eexists. split; [done|]. split; [by rewrite Hc, frame_count_scan_start|].
  intros sz. by rewrite Hsz.
Qed.

Lemma PKL_scan_missing_pickle Image_open dirs : ∀ s,
  Exists (λ d : string * option (list bytes), d.2 = None) dirs →
  (PKL_scan Image_open dirs s).2 = Raise FileNotFoundError.
Proof.
  induction dirs as [|[d [frame_data|]] rest IH]; intros s Hex; cbn [PKL_scan].
  - by apply Exists_nil in Hex.
  - apply IH. by apply Exists_cons in Hex as [?|?].
  - done.
Qed.

(** A [PKLStorage.put] that fails on an unreadable source file has created
    the sub-directory of the video and no [frames.pkl] in it; from then on
    [PKLStorage.info] on this storage raises [FileNotFoundError], whatever
    else is stored. *)
Theorem PKL_failed_put_breaks_info (Image_open : bytes → option image_size)
    (r : PKL.root) (video_key : string) (clip_tmp_dir : directory)
    (frame_files : list frame_entry) :
  r !! video_key = None →
  Exists (λ e, ¬ readable clip_tmp_dir e) frame_files →
  ∃ r', PKL.put r video_key clip_tmp_dir frame_files = (r', Raise FileNotFoundError)
    ∧ r' !! video_key = Some None
    ∧ (PKL_info Image_open r').2 = Raise FileNotFoundError.
Proof.
  intros Hr Hex. unfold PKL.put, PKL.mkdir. rewrite Hr.
  assert (∀ acc, PKL.read_frames clip_tmp_dir frame_files acc = Raise FileNotFoundError)
    as Hread.
  { induction frame_files as [|[fid p] rest IH]; intros acc; cbn [PKL.read_frames].
    - by apply Exists_nil in Hex.
    - unfold read_file. destruct (clip_tmp_dir !! p) as [data|] eqn:Hp; [|done].
      apply Exists_cons in Hex as [Hbad|Hex]; [|by apply IH].
      exfalso. apply Hbad. unfold readable. simpl. by rewrite Hp. }
  rewrite Hread. eexists. split; [done|]. split; [by rewrite lookup_insert_eq|].
  unfold PKL_info. apply PKL_scan_missing_pickle.
  apply Exists_exists. exists (video_key, None). split; [|done].
  apply elem_of_map_to_list. by rewrite lookup_insert_eq.
Qed.

(** ** The frame rate of a video *)

Lemma Qdiv_zero_iff (n d : Q) : ¬ (d == 0)%Q → ((n / d == 0)%Q ↔ (n == 0)%Q).
Proof.
  intros Hd. unfold Qdiv. split.
  - intros [Hn|Hinv]%Qmult_integral; [done|]. exfalso. apply Hd.
    rewrite <-(Qinv_involutive d), Hinv. reflexivity.
  - intros ->. apply Qmult_0_l.
Qed.

Lemma frame_rate_step (r : Q) (nums : Q * Q) :
  (if Qeq_bool nums.2 0 then r
   else if Qeq_bool (nums.1 / nums.2) 0 then r else (nums.1 / nums.2)%Q)
  = if decide (usable_rate nums) then (nums.1 / nums.2)%Q else r.
Proof.
  unfold usable_rate. destruct (Qeq_bool nums.2 0) eqn:Hd.
  - apply Qeq_bool_iff in Hd. rewrite decide_False; [done | tauto].
  - apply Qeq_bool_neq in Hd. destruct (Qeq_bool (nums.1 / nums.2) 0) eqn:Hn.
    + apply Qeq_bool_iff, Qdiv_zero_iff in Hn; [|done].
      rewrite decide_False; [done | tauto].
    + apply Qeq_bool_neq in Hn. rewrite decide_True; [done|].
      split; [done|]. intros Hz. apply Hn. by apply Qdiv_zero_iff.
Qed.

Lemma frame_rate_fold (streams : list (Q * Q)) : ∀ r : Q,
  foldl (λ r_frame_rate nums,
           if Qeq_bool nums.2 0 then r_frame_rate
           else
             let frame_rate := (nums.1 / nums.2)%Q in
             if Qeq_bool frame_rate 0 then r_frame_rate else frame_rate)
        r streams
  = match last (filter usable_rate streams) with
    | Some nums => (nums.1 / nums.2)%Q
    | None => r
    end.
Proof.
  induction streams as [|nums rest IH]; intros r; [done|].
  cbn [foldl]. cbv zeta. rewrite frame_rate_step, IH.
  destruct (decide (usable_rate nums)) as [Hu|Hu].
  - rewrite filter_cons_True by done.
    destruct (filter usable_rate rest) as [|y l] eqn:Hl; [done|].
    change (last (nums :: y :: l)) with (last (y :: l)).
    destruct (last (y :: l)) eqn:Hlast; [done|]. by apply last_None in Hlast.
  - by rewrite filter_cons_False.
Qed.

(** [get_frame_rate] returns the rate of the last stream whose denominator
    and numerator are both other than 0, and 0 when the probe reports no
    such stream (no stream at all, or an empty output); the rate it returns
    is 0 in these cases only. *)
Theorem get_frame_rate_last_usable (streams : list (Q * Q)) :
  get_frame_rate None = 0%Q
  ∧ get_frame_rate (Some streams)
    = match last (filter usable_rate streams) with
      | Some nums => (nums.1 / nums.2)%Q
      | None => 0%Q
      end
  ∧ (Qeq_bool (get_frame_rate (Some streams)) 0 = true
     ↔ Forall (λ nums, ¬ usable_rate nums) streams).
Proof.
  split; [done|]. unfold get_frame_rate. rewrite frame_rate_fold. split; [done|].
  destruct (last (filter usable_rate streams)) as [nums|] eqn:Hlast.
  - assert (nums ∈ filter usable_rate streams) as Hin.
    { apply last_Some in Hlast as [l' ->]. set_solver. }
    apply list_elem_of_filter in Hin as [[Hd Hn] Hin]. split.
    + intros Hz%Qeq_bool_iff. apply Qdiv_zero_iff in Hz; done.
    + intros Hall. rewrite Forall_forall in Hall. exfalso.
      by apply (Hall nums Hin).
  - apply last_None in Hlast. split; [|done]. intros _.
    apply Forall_forall. intros nums Hin Hu.
    assert (nums ∈ filter usable_rate streams) as Hf by (by apply list_elem_of_filter).
    rewrite Hlast in Hf. by apply elem_of_nil in Hf.
Qed.

(** ** Options at the start of a run *)

Lemma py_assert_inr (b : bool) : py_assert b = inr tt ↔ b = true.
Proof. unfold py_assert. by destruct b. Qed.

Lemma and_then_inr {A} (c : checked unit) (k : checked A) (x : A) :
  and_then c k = inr x ↔ c = inr tt ∧ k = inr x.
Proof. unfold and_then. destruct c as [e|[]]; naive_solver. Qed.

(** What the sanity check of [parse_args] lets through. *)
Lemma parse_args_check_passes (r : resize) (a : args) :
  parse_args_check r a = inr tt ↔
    (0 < short r → height r = 0 ∧ width r = 0)
    ∧ (0 < height r ∨ 0 < width r → 0 < height r ∧ 0 < width r ∧ short r = 0)
    ∧ (0 <= no_duplicates a)%Q ∧ (no_duplicates a < 1)%Q
    ∧ 0 < hash_size a ≤ 1024.
Proof.
  unfold parse_args_check. rewrite !and_then_inr.
  rewrite !py_assert_inr, andb_true_iff, Qle_bool_iff, bool_decide_eq_true.
  assert (Qlt_bool (no_duplicates a) 1 = true ↔ (no_duplicates a < 1)%Q) as ->.
  { unfold Qlt_bool. rewrite Qlt_alt. by destruct (_ ?= _)%Q. }
  repeat case_decide; rewrite ?py_assert_inr, ?bool_decide_eq_true; naive_solver.
Qed.

(** The sanity check of [parse_args] does not reject negative sizes, and
    the scaling options that follow accept options that passed the check
    except in one case: no size is positive and some size is negative; then
    the run ends with 'Invalid frame scale option'.  In every other case
    there is no scaling argument (all three sizes are 0) or the one pair
    ['-vf', scale]. *)
Theorem scale_options_after_check (r : resize) (a : args) :
  parse_args_check r a = inr tt →
  (scale_options r = inl InvalidFrameScale
   ↔ short r ≤ 0 ∧ height r ≤ 0 ∧ width r ≤ 0
     ∧ (short r < 0 ∨ height r < 0 ∨ width r < 0))
  ∧ (short r = 0 ∧ height r = 0 ∧ width r = 0 → scale_options r = inr [])
  ∧ (0 < short r →
     scale_options r
     = inr ["-vf"; "scale='iw*1.0/min(iw,ih)*" +:+ fmt_d (short r)
                   +:+ "':'ih*1.0/min(iw,ih)*" +:+ fmt_d (short r) +:+ "'"])
  ∧ (0 < height r ∨ 0 < width r →
     scale_options r = inr ["-vf"; "scale=" +:+ fmt_d (width r) +:+ ":" +:+ fmt_d (height r)]).
Proof.
  intros (Hshort & Hhw & _)%parse_args_check_passes. unfold scale_options.
  repeat split; repeat case_decide; try done; try lia; intros; try lia.
  all: try (destruct Hhw as (? & ? & ?); [lia|]); try lia.
Qed.

(** With [--interval] the run starts only when the other sampling options
    are off, and then the frame loop selects every frame the decoder has
    written: the selection is left to the decoder. *)
Theorem interval_mode_selects_every_frame (a : args) (vf_options vf_options' : list string)
    (entries : list frame_entry) :
  Qpositive (interval a) = true →
  sampling_options a vf_options = inr vf_options' →
  vf_options' = vf_options ++ ["-vsync"; "vfr"]
  ∧ sample_ids a (entries.*1) = Ok None
  ∧ selected a None entries = entries.
Proof.
  unfold sampling_options. intros -> [Hassert Hvf]%and_then_inr.
  apply py_assert_inr, bool_decide_eq_true in Hassert as [Hn Hk].
  split; [congruence|]. split.
  - unfold sample_ids. by rewrite decide_False by lia.
  - unfold selected. apply filter_Forall_id, Forall_forall. intros e _.
    unfold not_selected. by rewrite decide_False by lia.
Qed.

(** ** The decoder's filter from one video to the next *)

Lemma string_app_assoc (s1 s2 s3 : string) : (s1 +:+ s2) +:+ s3 = s1 +:+ s2 +:+ s3.
Proof.
  induction s1 as [|c s1 IH]; [done|].
  change ((String c s1 +:+ s2) +:+ s3) with (String c ((s1 +:+ s2) +:+ s3)).
  by rewrite IH.
Qed.

Lemma string_app_nil_r (s : string) : s +:+ "" = s.
Proof.
  induction s as [|c s IH]; [done|].
  change (String c s +:+ "") with (String c (s +:+ "")). by rewrite IH.
Qed.

Lemma interval_options_with_vf a r_frame_rate (value : string) (more : list string) :
  interval_options a r_frame_rate ("-vf" :: value :: more)
  = inr ("-vf" :: (value +:+ "," +:+ select_str a r_frame_rate) :: more).
Proof. unfold interval_options. cbn [list_find]. by rewrite decide_True. Qed.

Lemma interval_options_without_vf a r_frame_rate (vf_options : list string) :
  "-vf" ∉ vf_options →
  interval_options a r_frame_rate vf_options = inr ["-vf"; select_str a r_frame_rate].
Proof.
  intros Hno. unfold interval_options.
  assert (list_find (λ o : string, o = "-vf") vf_options = None) as ->; [|done].
  apply list_find_None, Forall_forall. by intros o Ho ->.
Qed.

Lemma vf_options_after_with_vf a rates : ∀ (value : string) (more : list string),
  Qpositive (interval a) = true →
  vf_options_after a rates ("-vf" :: value :: more)
  = inr ("-vf" :: (value +:+ select_clauses a rates) :: more).
Proof.
  induction rates as [|r rest IH]; intros value more Hq;
    cbn [vf_options_after select_clauses].
  - by rewrite string_app_nil_r.
  - rewrite Hq. destruct (Qeq_bool r 0); [by apply IH|].
    rewrite interval_options_with_vf, IH by done.
    by rewrite !string_app_assoc.
Qed.

(** With [--interval], [vf_options] is one list for all the videos and the
    step of each video with a frame rate other than 0 adds its select
    clause to it.  With a resize option the filter after the videos is the
    scale filter followed by one clause for every such video so far, and
    the arguments after it are kept.  Without a resize option the first
    such video replaces the whole list, the arguments ['-vsync', 'vfr']
    included, by ['-vf', select], and the later ones add their clauses to
    that.  In neither case is an index out of range. *)
Theorem interval_filters_accumulate (a : args) (rates : list Q) :
  Qpositive (interval a) = true →
  (∀ (value : string) (more : list string),
     vf_options_after a rates ("-vf" :: value :: more)
     = inr ("-vf" :: (value +:+ select_clauses a rates) :: more))
  ∧ (∀ (vf_options : list string) (zero later : list Q) (r_frame_rate : Q),
       "-vf" ∉ vf_options →
       rates = zero ++ r_frame_rate :: later →
       Forall (λ r, Qeq_bool r 0 = true) zero →
       Qeq_bool r_frame_rate 0 = false →
       vf_options_after a rates vf_options
       = inr ["-vf"; select_str a r_frame_rate +:+ select_clauses a later])
  ∧ (∀ vf_options : list string,
       Forall (λ r, Qeq_bool r 0 = true) rates →
       vf_options_after a rates vf_options = inr vf_options).
Proof.
  intros Hq. split; [|split].
  - intros value more. by apply vf_options_after_with_vf.
  - intros vf_options zero later r Hno -> Hzero Hr.
    induction Hzero as [|z zero Hz _ IH]; cbn [app vf_options_after]; rewrite Hq.
    + rewrite Hr, interval_options_without_vf by done.
      by apply vf_options_after_with_vf.
    + by rewrite Hz.
  - intros vf_options Hzero.
    induction Hzero as [|z zero Hz _ IH]; cbn [vf_options_after]; [done|].
    by rewrite Hq, Hz.
Qed.

(** ** The videos of a run *)

Lemma iter_videos_acc files : ∀ all_videos unique_vids,
  iter_videos files all_videos unique_vids
  = all_videos ++ iter_videos files [] unique_vids.
Proof.
  induction files as [|f rest IH]; intros acc uniq; cbn [iter_videos].
  - by rewrite app_nil_r.
  - case_decide; [|by apply IH].
    rewrite (IH (acc ++ [f])), (IH ([] ++ [f])). by rewrite <-app_assoc.
Qed.

Lemma iter_videos_spec files : ∀ unique_vids,
  let found := iter_videos files [] unique_vids in
  found `sublist_of` files
  ∧ Forall (λ f, path_suffix f ∈ VIDEO_FORMATS) found
  ∧ NoDup (path_stem <$> found)
  ∧ (∀ f, f ∈ found → path_stem f ∉ unique_vids)
  ∧ (∀ f, f ∈ files → path_suffix f ∈ VIDEO_FORMATS →
          path_stem f ∈ unique_vids ∨ path_stem f ∈ path_stem <$> found).
Proof.
  induction files as [|f rest IH]; intros uniq; cbn [iter_videos]; cbv zeta.
  - split; [done|]. split; [constructor|]. split; [constructor|].
    split; intros f Hf; by apply elem_of_nil in Hf.
  - case_decide as Hf.
    + rewrite iter_videos_acc. cbn [app].
      destruct (IH ({[path_stem f]} ∪ uniq)) as (Hsub & Hsuf & Hnd & Hnew & Hcov).
      destruct Hf as [Hvid Hfresh].
      split; [|split; [|split; [|split]]].
      * by apply sublist_skip.
      * by constructor.
      * cbn [fmap list_fmap]. constructor; [|done].
        intros (g & Hg & Hin)%list_elem_of_fmap. apply Hnew in Hin. set_solver.
      * intros g [->|Hg]%elem_of_cons; [done|]. apply Hnew in Hg. set_solver.
      * intros g [->|Hg]%elem_of_cons Hgs.
        -- right. cbn [fmap list_fmap]. left.
        -- destruct (Hcov g Hg Hgs) as [Hin|Hin]; [|right; by right].
           apply elem_of_union in Hin as [->%elem_of_singleton|Hin]; [|by left].
           right. left.
    + destruct (IH uniq) as (Hsub & Hsuf & Hnd & Hnew & Hcov).
      split; [|split; [done|split; [done|split; [done|]]]].
      * by apply sublist_cons.
      * intros g [->|Hg]%elem_of_cons Hgs; [|by apply Hcov].
        destruct (decide (path_stem f ∈ uniq)) as [?|Hfresh]; [by left|].
        exfalso. apply Hf. done.
Qed.

Lemma find_videos_NoDup (is_dir : bool) (video_path : file_path) (files : list file_path) :
  NoDup (path_stem <$> find_videos is_dir video_path files).
Proof.
  unfold find_videos. destruct is_dir.
  - apply (iter_videos_spec files ∅).
  - cbn. constructor; [|constructor]. by intros ?%elem_of_nil.
Qed.


Section DeadNotice.

Context (ImageHash : Type) (hash_algorithm : bytes → Z → option ImageHash)
        (hash_sub : ImageHash → ImageHash → Z).

Lemma process_video_unseen a vid st :
  video_key vid ∉ done_videos st →
  Forall not_notice (stdout st) →
  Forall not_notice (stdout (process_video ImageHash hash_algorithm hash_sub a vid st).1)
  ∧ done_videos (process_video ImageHash hash_algorithm hash_sub a vid st).1
    ⊆ {[video_key vid]} ∪ done_videos st.
Proof.
  intros Hnew Hout. unfold process_video. rewrite decide_False by done.
  destruct (Qpositive (interval a) && Qeq_bool (r_frame_rate vid) 0).
  { cbn. split; [|set_solver]. apply Forall_app. split; [done|]. by repeat constructor. }
  destruct (select_frames _ _ _ _ _ _) as [fs|e]; [|cbn; split; [done|set_solver]].
  destruct (put _ _ _ _) as [db [[]|e]]; [|cbn; split; [done|set_solver]].
  destruct (Qpositive (no_duplicates a)); [case_decide|]; cbn.
  - split; [done|set_solver].
  - split; [|set_solver]. apply Forall_app. split; [done|]. by repeat constructor.
  - split; [done|set_solver].
Qed.

Lemma process_videos_unseen a vids : ∀ st,
  NoDup (video_key <$> vids) →
  (∀ vid, vid ∈ vids → video_key vid ∉ done_videos st) →
  Forall not_notice (stdout st) →
  Forall not_notice (stdout (process_videos ImageHash hash_algorithm hash_sub a vids st).1).
Proof.
  induction vids as [|vid rest IH]; intros st Hnd Hnew Hout; cbn [process_videos]; [done|].
  cbn [fmap list_fmap] in Hnd. apply NoDup_cons in Hnd as [Hvid Hnd].
  destruct (process_video_unseen a vid st) as [Hout1 Hdone1];
    [apply Hnew; by left | done |].
  destruct (process_video _ _ _ a vid st) as [st1 [[]|e]]; cbn [fst] in *; [|done].
  apply IH; [done| |done].
  intros v Hv Hin. apply Hdone1 in Hin.
  apply elem_of_union in Hin as [Heq%elem_of_singleton|Hin].
  - apply Hvid. rewrite <-Heq. apply list_elem_of_fmap. by exists v.
  - apply (Hnew v); [by right | done].
Qed.

(** The "seen before, ignored" notice is never printed in a run: the video
    keys are the stems of the videos found at the start, these stems are
    pairwise distinct, and a key is in [done_videos] only after its own
    iteration. *)
Theorem seen_before_never_printed (a : args) (db : storage) (is_dir : bool)
    (video_path : file_path) (files : list file_path) (decode : file_path → video) :
  (∀ f, video_key (decode f) = path_stem f) →
  ∀ key,
    SeenBefore key
    ∉ stdout (process_videos ImageHash hash_algorithm hash_sub a
                (decode <$> find_videos is_dir video_path files) (run_start db)).1.
Proof.
  intros Hkey key Hin.
  assert (Forall not_notice
            (stdout (process_videos ImageHash hash_algorithm hash_sub a
                       (decode <$> find_videos is_dir video_path files)
                       (run_start db)).1)) as Hall.
  { apply process_videos_unseen; [|by intros; cbn; set_solver|by constructor].
    rewrite <-list_fmap_compose.
    rewrite (list_fmap_ext (video_key ∘ decode) path_stem) by (intros; apply Hkey).
    apply find_videos_NoDup. }
  rewrite Forall_forall in Hall. by apply Hall in Hin.
Qed.

End DeadNotice.

(** ** Invariants of the frame loop *)

Section LoopInvariants.

Context (ImageHash : Type) (hash_algorithm : bytes → Z → option ImageHash)
        (hash_sub : ImageHash → ImageHash → Z).

Lemma detect_duplicate_Ok a v_dir hs name (b : bool) hs' :
  detect_duplicate ImageHash hash_algorithm hash_sub a v_dir hs name = Ok (b, hs') →
  ∃ data h, v_dir !! name = Some data ∧ hash_algorithm data (hash_size a) = Some h
    ∧ (b = true ∧ hs' = hs ∧ Exists (λ h2, hash_sub h h2 ≤ diff_limit a) hs
       ∨ b = false ∧ hs' = hs ++ [h] ∧ Forall (λ h2, diff_limit a < hash_sub h h2) hs).
Proof.
  unfold detect_duplicate, read_file.
  destruct (v_dir !! name) as [data|] eqn:Hdata; [|done].
  destruct (hash_algorithm data (hash_size a)) as [h|] eqn:Hh; [|done].
  destruct (near_any _ _ _ _ _) eqn:Hnear; intros [= <- <-]; exists data, h.
  - split; [done|]. split; [done|]. left. by apply near_any_Exists in Hnear.
  - split; [done|]. split; [done|]. right. split; [done|]. split; [done|].
    apply Forall_forall. intros h2 Hin.
    destruct (decide (hash_sub h h2 ≤ diff_limit a)) as [Hle|]; [|lia].
    assert (near_any ImageHash hash_sub a h hs = true) as Habs.
    { apply near_any_Exists, Exists_exists. eauto. }
    congruence.
Qed.

Lemma far_apart_snoc limit (hs : list ImageHash) (h : ImageHash) :
  far_apart hash_sub limit hs →
  Forall (λ h2, limit < hash_sub h h2) hs →
  far_apart hash_sub limit (hs ++ [h]).
Proof.
  intros Hfar Hall i j hi hj Hij Hi Hj.
  assert (j < length (hs ++ [h]))%nat as Hlen by (by eapply lookup_lt_Some).
  rewrite length_app in Hlen. cbn in Hlen.
  rewrite lookup_app_l in Hi by lia.
  destruct (decide (j < length hs)%nat) as [Hlt|Hge].
  - rewrite lookup_app_l in Hj by done. exact (Hfar i j hi hj Hij Hi Hj).
  - rewrite lookup_app_r in Hj by lia.
    replace (j - length hs)%nat with O in Hj by lia. injection Hj as <-.
    rewrite Forall_forall in Hall. apply Hall. by eapply list_elem_of_lookup_2.
Qed.

(** The counters and the list of the loop, whatever the options. *)
Lemma frame_loop_accounting a v_dir samples entries : ∀ st st',
  frame_loop ImageHash hash_algorithm hash_sub a v_dir samples entries st = Ok st' →
  total_files st' = (total_files st + length (selected a samples entries))%nat
  ∧ ∃ kept, frame_files st' = frame_files st ++ kept
      ∧ kept `sublist_of` selected a samples entries
      ∧ (duplicates st' + length kept
         = duplicates st + length (selected a samples entries))%nat.
Proof.
  induction entries as [|[fid name] rest IH]; intros st st' Hloop.
  - injection Hloop as <-. split; [cbn; lia|]. exists []. by rewrite app_nil_r.
  - cbn [frame_loop] in Hloop. rewrite selected_cons. cbn [fst].
    destruct (not_selected a samples fid); [by apply IH|].
    destruct (Qpositive (no_duplicates a)).
    + destruct (detect_duplicate _ _ _ _ _ _ _) as [[[] hs]|e]; [| |done].
      * apply IH in Hloop as (Ht & kept & Hk & Hsub & Hd).
        cbn [total_files frame_files duplicates length] in *. split; [lia|].
        exists kept. split; [done|]. split; [by apply sublist_cons | lia].
      * apply IH in Hloop as (Ht & kept & Hk & Hsub & Hd).
        cbn [total_files frame_files duplicates length] in *. split; [lia|].
        exists ((fid, name) :: kept). rewrite Hk, <-app_assoc.
        split; [done|]. split; [by apply sublist_skip | cbn; lia].
    + apply IH in Hloop as (Ht & kept & Hk & Hsub & Hd).
      cbn [total_files frame_files duplicates length] in *. split; [lia|].
      exists ((fid, name) :: kept). rewrite Hk, <-app_assoc.
      split; [done|]. split; [by apply sublist_skip | cbn; lia].
Qed.

(** When the frame selection of a video ends normally, for any options:
    [total_files] is the number of entries that passed the sampling test,
    every one of them was either kept or counted as a duplicate, and the
    list handed to storage is sorted by frame id and consists of entries of
    the directory that passed the sampling test, each at most as often as
    the directory has it. *)
Theorem select_frames_accounting (a : args) (v_dir : directory)
    (entries : list frame_entry) (fs : frames_state ImageHash) :
  select_frames ImageHash hash_algorithm hash_sub a v_dir entries = Ok fs →
  ∃ samples kept,
    sample_ids a (entries.*1) = Ok samples
    ∧ total_files fs = length (selected a samples entries)
    ∧ (duplicates fs + length (frame_files fs) = total_files fs)%nat
    ∧ Sorted frame_le (frame_files fs)
    ∧ frame_files fs ≡ₚ kept
    ∧ kept `sublist_of` selected a samples entries.
Proof.
  unfold select_frames. destruct (sample_ids a (entries.*1)) as [samples|e]; [|done].
  destruct (frame_loop _ _ _ _ _ _ _ _) as [st|e] eqn:Hloop; [|done].
  intros [= <-]. apply frame_loop_accounting in Hloop as (Ht & kept & Hk & Hsub & Hd).
  cbn [total_files frame_files duplicates app] in *.
  exists samples, kept. split; [done|]. split; [lia|].
  assert (merge_sort frame_le (frame_files st) ≡ₚ kept) as Hperm.
  { rewrite merge_sort_Permutation. by rewrite Hk. }
  split; [rewrite (Permutation_length Hperm); lia|].
  split; [apply (Sorted_merge_sort _)|]. done.
Qed.

Lemma frame_loop_far_apart a v_dir samples entries : ∀ st st',
  Qpositive (no_duplicates a) = true →
  frame_loop ImageHash hash_algorithm hash_sub a v_dir samples entries st = Ok st' →
  far_apart hash_sub (diff_limit a) (hashes st) →
  Forall2 (λ e h, fingerprint ImageHash hash_algorithm a v_dir e = Some h)
    (frame_files st) (hashes st) →
  far_apart hash_sub (diff_limit a) (hashes st')
  ∧ Forall2 (λ e h, fingerprint ImageHash hash_algorithm a v_dir e = Some h)
      (frame_files st') (hashes st')
  ∧ (∃ more, hashes st' = hashes st ++ more)
  ∧ ∀ e, e ∈ selected a samples entries →
         e ∈ frame_files st'
         ∨ ∃ h h2, fingerprint ImageHash hash_algorithm a v_dir e = Some h
                   ∧ h2 ∈ hashes st' ∧ hash_sub h h2 ≤ diff_limit a.
Proof.
  induction entries as [|[fid name] rest IH]; intros st st' Hq Hloop Hfar Hfp.
  - injection Hloop as <-. split; [done|]. split; [done|].
    split; [exists []; by rewrite app_nil_r|]. by intros e ?%elem_of_nil.
  - cbn [frame_loop] in Hloop. rewrite selected_cons. cbn [fst].
    destruct (not_selected a samples fid); [by apply IH|].
    rewrite Hq in Hloop.
    destruct (detect_duplicate _ _ _ _ _ _ _) as [[b hs]|e] eqn:Hdet; [|done].
    apply detect_duplicate_Ok in Hdet
      as (data & h & Hdata & Hh & [(-> & -> & Hnear)|(-> & -> & Hfarh)]).
    + apply IH in Hloop as (Hfar' & Hfp' & [more Hmore] & Hsel); [|done..].
      cbn [hashes frame_files] in *. split; [done|]. split; [done|].
      split; [by exists more|].
      intros e [->|He]%elem_of_cons; [|by apply Hsel].
      right. apply Exists_exists in Hnear as (h2 & Hin & Hle).
      exists h, h2. unfold fingerprint. cbn [snd]. rewrite Hdata. cbn.
      split; [done|]. split; [|done]. rewrite Hmore. set_solver.
    + pose proof (frame_loop_accounting _ _ _ _ _ _ Hloop) as (_ & kept & Hk & _).
      apply IH in Hloop as (Hfar' & Hfp' & [more Hmore] & Hsel); [|done|..].
      * cbn [hashes frame_files] in *. split; [done|]. split; [done|].
        split; [exists ([h] ++ more); by rewrite Hmore, <-app_assoc|].
        intros e [->|He]%elem_of_cons; [|by apply Hsel].
        left. rewrite Hk. set_solver.
      * by apply far_apart_snoc.
      * cbn [hashes frame_files]. apply Forall2_app; [done|].
        constructor; [|constructor]. unfold fingerprint. cbn [snd]. by rewrite Hdata.
Qed.

(** With a positive threshold, when the frame selection of a video ends
    normally: the accepted fingerprints, in the order of acceptance, are
    pairwise further apart than [diff_limit] (each from every earlier one);
    they are the fingerprints of the frames kept; and every frame that
    passed the sampling test and was not kept is within [diff_limit] of an
    accepted fingerprint. *)
Theorem duplicate_filter_guarantee (a : args) (v_dir : directory)
    (entries : list frame_entry) (fs : frames_state ImageHash) :
  Qpositive (no_duplicates a) = true →
  select_frames ImageHash hash_algorithm hash_sub a v_dir entries = Ok fs →
  far_apart hash_sub (diff_limit a) (hashes fs)
  ∧ fingerprint ImageHash hash_algorithm a v_dir <$> frame_files fs
    ≡ₚ Some <$> hashes fs
  ∧ ∀ samples e,
      sample_ids a (entries.*1) = Ok samples →
      e ∈ selected a samples entries →
      e ∈ frame_files fs
      ∨ ∃ h h2, fingerprint ImageHash hash_algorithm a v_dir e = Some h
                ∧ h2 ∈ hashes fs ∧ hash_sub h h2 ≤ diff_limit a.
Proof.
  intros Hq. unfold select_frames.
  destruct (sample_ids a (entries.*1)) as [samples|e]; [|done].
  destruct (frame_loop _ _ _ _ _ _ _ _) as [st|e] eqn:Hloop; [|done].
  intros [= <-]. cbn [hashes frame_files].
  apply frame_loop_far_apart in Hloop as (Hfar & Hfp & _ & Hsel); [|done|..].
  - split; [done|]. split.
    + rewrite merge_sort_Permutation.
      clear -Hfp. induction Hfp as [|e h es hs He _ IH]; [done|].
      cbn. by rewrite He, IH.
    + intros samples' e [= <-] He. destruct (Hsel e He) as [Hin|Hnear]; [|by right].
      left. by rewrite merge_sort_Permutation.
  - by intros i j hi hj _ ?.
  - constructor.
Qed.

End LoopInvariants.

(** ** The distance limit of the duplicate filter *)

Lemma py_round_floor_or_next (x : Q) :
  py_round x = Qfloor x ∨ py_round x = Qfloor x + 1.
Proof.
  unfold py_round. destruct (_ ?= _)%Q; [destruct (Z.even _)|..]; auto.
Qed.

Lemma py_round_nonneg (x : Q) : (0 <= x)%Q → 0 ≤ py_round x.
Proof.
  intros Hx. apply Qfloor_resp_le in Hx. change (Qfloor 0) with 0 in Hx.
  destruct (py_round_floor_or_next x) as [->| ->]; lia.
Qed.

Lemma py_round_le (x : Q) (n : Z) : (x <= inject_Z n)%Q → py_round x ≤ n.
Proof.
  intros Hx. pose proof (Qfloor_resp_le _ _ Hx) as Hf. rewrite Qfloor_Z in Hf.
  destruct (decide (Qfloor x = n)) as [Heq|Hne].
  - unfold py_round. rewrite Heq.
    assert ((x - inject_Z n ?= 1 # 2)%Q = Lt) as ->; [|lia].
    apply Qlt_alt. apply Qle_lt_trans with 0%Q; [|done].
    apply (Qplus_le_l _ _ (inject_Z n)). ring_simplify. done.
  - destruct (py_round_floor_or_next x) as [->| ->]; lia.
Qed.


(** ** Uniform sampling keeps both ends *)

Section UniformEnds.

Context (ImageHash : Type) (hash_algorithm : bytes → Z → option ImageHash)
        (hash_sub : ImageHash → ImageHash → Z).


End UniformEnds.

(** ** Edge cases and the outcome of the loop over the videos *)

(** The frames of a video that reach [put]. *)
Section VideoEdges.

Context (ImageHash : Type) (hash_algorithm : bytes → Z → option ImageHash)
        (hash_sub : ImageHash → ImageHash → Z).

Lemma put_nil (db : storage) (key : string) (dir : directory) :
  (put db key dir []).2 = Ok tt.
Proof. by destruct db. Qed.

(** A video for which the decoder wrote no frame (the directory is empty)
    and which interval sampling does not skip.  With uniform sampling
    [min(ids)] raises [ValueError] before anything is stored.  Otherwise
    [put] is called with no frame and the key is marked as done; after
    that, with a positive duplicate threshold the percentage divides by
    [total_files = 0] and the run ends with [ZeroDivisionError], and with
    threshold 0 the iteration ends normally. *)
Theorem empty_frame_directory (a : args) (vid : video) (st : run_state) :
  v_entries vid = [] →
  skipped a vid = false →
  let out := process_video ImageHash hash_algorithm hash_sub a vid st in
  (0 < num_frame a →
     out.2 = Raise ValueError
     ∧ frame_db out.1 = frame_db st ∧ done_videos out.1 = done_videos st)
  ∧ (num_frame a ≤ 0 →
     out.2 = (if Qpositive (no_duplicates a) then Raise ZeroDivisionError else Ok tt)
     ∧ frame_db out.1 = (put (frame_db st) (video_key vid) (v_dir vid) []).1
     ∧ done_videos out.1 = {[video_key vid]} ∪ done_videos st).
Proof.
  intros Hnil Hskip out. subst out. unfold process_video.
  unfold skipped in Hskip. rewrite Hskip, Hnil.
  set (st1 := if decide (video_key vid ∈ done_videos st) then _ else st).
  assert (done_videos st1 = done_videos st ∧ frame_db st1 = frame_db st)
    as [Hd Hdb] by (subst st1; by case_decide).
  unfold select_frames, sample_ids. cbn [fmap list_fmap py_min py_max].
  split; intros Hn.
  - rewrite decide_True by done. by cbn.
  - rewrite decide_False by lia. cbn [frame_loop hashes total_files duplicates frame_files].
    change (merge_sort frame_le []) with (@nil frame_entry).
    pose proof (put_nil (frame_db st1) (video_key vid) (v_dir vid)) as Hput.
    rewrite Hdb in Hput |- *.
    destruct (put (frame_db st) (video_key vid) (v_dir vid) []) as [db r].
    cbn [snd fst] in *. subst r.
    destruct (Qpositive (no_duplicates a)); cbn; by rewrite Hd.
Qed.

(** The frames of a video that are handed to [put]. *)
Lemma process_video_Ok a vid st st' :
  process_video ImageHash hash_algorithm hash_sub a vid st = (st', Ok tt) →
  if skipped a vid
  then done_videos st' = done_videos st ∧ frame_db st' = frame_db st
  else ∃ fs, select_frames ImageHash hash_algorithm hash_sub a (v_dir vid) (v_entries vid)
               = Ok fs
             ∧ put (frame_db st) (video_key vid) (v_dir vid) (frame_files fs)
               = (frame_db st', Ok tt)
             ∧ done_videos st' = {[video_key vid]} ∪ done_videos st.
Proof.
  unfold process_video, skipped.
  set (st1 := if decide (video_key vid ∈ done_videos st) then _ else st).
  assert (done_videos st1 = done_videos st ∧ frame_db st1 = frame_db st)
    as [Hd Hdb] by (subst st1; by case_decide).
  destruct (Qpositive (interval a) && Qeq_bool (r_frame_rate vid) 0).
  { intros [= <-]. by cbn. }
  destruct (select_frames _ _ _ _ _ _) as [fs|e]; [|done].
  rewrite Hdb.
  destruct (put _ _ _ _) as [db [[]|e]] eqn:Hput; [|done].
  intros Hst. exists fs. split; [done|].
  destruct (Qpositive (no_duplicates a)); [case_decide; [done|]|];
    injection Hst as <-; cbn; rewrite Hd; by split.
Qed.

End VideoEdges.

Section RunOutcome.

Context (ImageHash : Type) (hash_algorithm : bytes → Z → option ImageHash)
        (hash_sub : ImageHash → ImageHash → Z).

Lemma process_videos_Ok a vids : ∀ st st',
  process_videos ImageHash hash_algorithm hash_sub a vids st = (st', Ok tt) →
  done_videos st'
  = list_to_set (video_key <$> filter (λ v, skipped a v = false) vids) ∪ done_videos st
  ∧ frame_db st'
    = foldl (λ db v, (put db (video_key v) (v_dir v)
                        (kept_frames hash_algorithm hash_sub a v)).1)
        (frame_db st) (filter (λ v, skipped a v = false) vids).
Proof.
  induction vids as [|vid rest IH]; intros st st' Hrun; cbn [process_videos] in Hrun.
  - injection Hrun as <-. split; [set_solver|done].
  - destruct (process_video _ _ _ a vid st) as [st1 [[]|e]] eqn:Hvid; [|done].
    apply process_video_Ok in Hvid. apply IH in Hrun as [Hdone Hdb].
    destruct (skipped a vid) eqn:Hskip.
    + destruct Hvid as [Hd1 Hdb1].
      rewrite filter_cons_False by (by rewrite Hskip).
      by rewrite Hdone, Hdb, Hd1, Hdb1.
    + destruct Hvid as (fs & Hsel & Hput & Hd1).
      rewrite filter_cons_True by done. cbn [fmap list_fmap foldl list_to_set].
      unfold kept_frames at 2. rewrite Hsel, Hput. cbn [fst].
      split; [rewrite Hdone, Hd1; set_solver | done].
Qed.

(** When the loop over the videos ends normally, [done_videos] holds
    exactly the keys of the videos that interval sampling did not skip for
    a zero frame rate, and the database is the result of one [put] per such
    video, in the order of the run, each with the sorted frames its frame
    loop kept; a skipped video leaves no trace in the database. *)
Theorem run_outcome (a : args) (vids : list video) (db : storage) (st : run_state) :
  process_videos ImageHash hash_algorithm hash_sub a vids (run_start db) = (st, Ok tt) →
  done_videos st = list_to_set (video_key <$> filter (λ v, skipped a v = false) vids)
  ∧ frame_db st
    = foldl (λ db v, (put db (video_key v) (v_dir v)
                        (kept_frames hash_algorithm hash_sub a v)).1)
        db (filter (λ v, skipped a v = false) vids).
Proof.
  intros [Hdone Hdb]%process_videos_Ok. split; [|done].
  rewrite Hdone. cbn. set_solver.
Qed.

End RunOutcome.

(** ** Key order and frame order *)

Lemma numeral_from_acc (s : string) : ∀ acc,
  numeral_from acc s
  = (acc * 10 ^ N.of_nat (String.length s) + numeral_from 0 s)%N.
Proof.
  induction s as [|c s IH]; intros acc; cbn [numeral_from String.length].
  - change (N.of_nat 0) with 0%N. rewrite N.pow_0_r. lia.
  - rewrite (IH (10 * acc + _)%N), (IH (10 * 0 + _)%N).
    rewrite Nat2N.inj_succ, N.pow_succ_r'. ring.
Qed.

Lemma numeral_cons (c : ascii) (s : string) :
  numeral (String c s)
  = ((N_of_ascii c - 48) * 10 ^ N.of_nat (String.length s) + numeral s)%N.
Proof.
  unfold numeral. cbn [numeral_from]. by rewrite numeral_from_acc.
Qed.

Lemma numeral_lt (s : string) :
  digits s → (numeral s < 10 ^ N.of_nat (String.length s))%N.
Proof.
  induction s as [|c s IH]; intros Hs.
  - by compute.
  - destruct Hs as [[Hc1 Hc2] Hs]. rewrite numeral_cons.
    cbn [String.length]. rewrite Nat2N.inj_succ, N.pow_succ_r'.
    specialize (IH Hs). nia.
Qed.

(** Digit strings of one length compare as the numbers they denote. *)
Lemma compare_digits (s : string) : ∀ t,
  String.length s = String.length t → digits s → digits t →
  String.compare s t = (numeral s ?= numeral t)%N.
Proof.
  induction s as [|c s IH]; intros [|d t] Hlen Hs Ht; try done.
  destruct Hs as [[Hc1 Hc2] Hs], Ht as [[Hd1 Hd2] Ht].
  injection Hlen as Hlen.
  pose proof (numeral_lt s Hs) as Hbs. pose proof (numeral_lt t Ht) as Hbt.
  rewrite !numeral_cons, <-Hlen. rewrite <-Hlen in Hbt.
  cbn [String.compare]. unfold Ascii.compare.
  destruct (N.compare_spec (N_of_ascii c) (N_of_ascii d)) as [Heq|Hlt|Hgt].
  - rewrite Heq, (IH t) by done.
    destruct (N.compare_spec (numeral s) (numeral t)); symmetry;
      [apply N.compare_eq_iff | apply N.compare_lt_iff | apply N.compare_gt_iff]; lia.
  - symmetry. apply N.compare_lt_iff. nia.
  - symmetry. apply N.compare_gt_iff. nia.
Qed.

Lemma compare_app_prefix (p s t : string) :
  String.compare (p +:+ s) (p +:+ t) = String.compare s t.
Proof.
  induction p as [|c p IH]; [done|].
  change (String c p +:+ s) with (String c (p +:+ s)).
  change (String c p +:+ t) with (String c (p +:+ t)).
  cbn [String.compare]. unfold Ascii.compare. by rewrite N.compare_refl.
Qed.

Lemma pretty_N_char_digit (x : N) :
  (x < 10)%N → N_of_ascii (pretty_N_char x) = (48 + x)%N.
Proof.
  intros Hx.
  assert (x = 0 ∨ x = 1 ∨ x = 2 ∨ x = 3 ∨ x = 4 ∨ x = 5 ∨ x = 6
          ∨ x = 7 ∨ x = 8 ∨ x = 9)%N as Hc by lia.
  repeat (destruct Hc as [-> | Hc]; [by compute|]). subst x. by compute.
Qed.

Lemma pretty_N_go_numeral (x : N) : ∀ (s : string) (k : nat),
  digits s → (x < 10 ^ N.of_nat k)%N →
  digits (pretty_N_go x s)
  ∧ numeral (pretty_N_go x s) = (x * 10 ^ N.of_nat (String.length s) + numeral s)%N
  ∧ (String.length (pretty_N_go x s) ≤ k + String.length s)%nat.
Proof.
  induction (N.lt_wf_0 x) as [x _ IH]; intros s k Hs Hk.
  destruct (decide (x = 0)%N) as [->|Hx].
  - rewrite pretty_N_go_0. split; [done|]. split; lia.
  - rewrite pretty_N_go_step by lia.
    assert (x `mod` 10 < 10)%N as Hmod by (by apply N.mod_lt).
    destruct k as [|k]; [change (N.of_nat 0) with 0%N in Hk; rewrite N.pow_0_r in Hk; lia|].
    rewrite Nat2N.inj_succ, N.pow_succ_r' in Hk.
    destruct (IH (x `div` 10)%N) with
      (s := String (pretty_N_char (x `mod` 10)) s) (k := k) as (Hd & Hn & Hl).
    + apply N.div_lt; lia.
    + split; [|done]. unfold is_digit. rewrite pretty_N_char_digit by done.
      revert Hmod. generalize (x `mod` 10)%N. intros; lia.
    + apply N.Div0.div_lt_upper_bound. lia.
    + split; [done|]. split.
      * rewrite Hn, numeral_cons, pretty_N_char_digit by done.
        cbn [String.length]. rewrite Nat2N.inj_succ, N.pow_succ_r'.
        rewrite (N.add_comm 48), N.add_sub.
        assert (x = 10 * x `div` 10 + x `mod` 10)%N as Hdm by (by apply N.div_mod).
        revert Hdm. generalize (x `div` 10)%N (x `mod` 10)%N. intros q r ->. ring.
      * cbn [String.length] in Hl. lia.
Qed.

Lemma zeros_digits (n : nat) (s : string) :
  digits s → digits (zeros n +:+ s) ∧ numeral (zeros n +:+ s) = numeral s.
Proof.
  intros Hs. induction n as [|n [IH1 IH2]]; [done|].
  change (zeros (S n) +:+ s) with (String "0" (zeros n +:+ s)).
  split.
  - split; [|done]. unfold is_digit. by compute.
  - rewrite numeral_cons, IH2. change (N_of_ascii "0" - 48)%N with 0%N. lia.
Qed.

Lemma fmt_08d_numeral (i : nat) :
  (N.of_nat i < 10 ^ 8)%N →
  digits (fmt_08d i) ∧ numeral (fmt_08d i) = N.of_nat i
  ∧ String.length (fmt_08d i) = 8%nat.
Proof.
  intros Hi. unfold fmt_08d.
  assert (digits (pretty i) ∧ numeral (pretty i) = N.of_nat i
          ∧ (String.length (pretty i) ≤ 8)%nat) as (Hd & Hn & Hl).
  { unfold pretty, pretty_nat, pretty, pretty_N. case_decide as Hz.
    - rewrite Hz. split; [split; [unfold is_digit; by compute | done]|].
      split; [by compute | cbn; lia].
    - destruct (pretty_N_go_numeral (N.of_nat i) "" 8) as (Hd & Hn & Hl); [done..|].
      change (String.length "") with 0%nat in Hl, Hn.
      rewrite Nat.add_0_r in Hl. split; [done|]. split; [|exact Hl].
      rewrite Hn. change (numeral "") with 0%N.
      change (N.of_nat 0) with 0%N. rewrite N.pow_0_r. clear. lia. }
  destruct (zeros_digits (8 - String.length (pretty i)) (pretty i) Hd) as [Hd' Hn'].
  split; [done|]. split; [by rewrite Hn'|].
  rewrite string_length_app, length_zeros. lia.
Qed.

Lemma frame_key_compare (video_key : string) (i j : nat) :
  (N.of_nat i < 10 ^ 8)%N → (N.of_nat j < 10 ^ 8)%N →
  String.compare (frame_key video_key i) (frame_key video_key j) = (i ?= j)%nat.
Proof.
  intros Hi Hj. unfold frame_key. rewrite !compare_app_prefix.
  destruct (fmt_08d_numeral i Hi) as (Hdi & Hni & Hli).
  destruct (fmt_08d_numeral j Hj) as (Hdj & Hnj & Hlj).
  rewrite compare_digits by (done || congruence).
  rewrite Hni, Hnj. symmetry. apply Nat2N.inj_compare.
Qed.

#[global] Instance name_le_total {A} : Total (@name_le A).
Proof. intros x y. unfold name_le. apply (total String.le). Qed.

#[global] Instance name_le_trans {A} : Transitive (@name_le A).
Proof. intros x y z. unfold name_le. apply (transitivity (R := String.le)). Qed.

Lemma StronglySorted_fmap_seq {A} (R : relation A) (f : nat → A) (n : nat) : ∀ k,
  (∀ i j, (k ≤ i)%nat → (i < j)%nat → (j < k + n)%nat → R (f i) (f j)) →
  StronglySorted R (f <$> seq k n).
Proof.
  induction n as [|n IH]; intros k HR; cbn; constructor.
  - apply IH. intros i j ???. apply HR; lia.
  - apply Forall_forall. intros y (j & -> & [??]%elem_of_seq)%list_elem_of_fmap.
    apply HR; lia.
Qed.

Lemma StronglySorted_zip_keys {A} (ks : list string) : ∀ (vs : list A),
  StronglySorted String.le ks → StronglySorted name_le (zip ks vs).
Proof.
  induction ks as [|k ks IH]; intros [|v vs] Hks; cbn; try constructor.
  - apply IH. by apply StronglySorted_inv in Hks as [? _].
  - apply StronglySorted_inv in Hks as [_ Hall].
    apply Forall_forall. intros [k' v'] Hin%elem_of_zip_l.
    rewrite Forall_forall in Hall. by apply Hall.
Qed.

Lemma frame_keys_sorted (video_key : string) (n : nat) :
  (N.of_nat n ≤ 10 ^ 8)%N → StronglySorted String.le (frame_keys video_key n).
Proof.
  intros Hn. apply StronglySorted_fmap_seq. intros i j _ Hij Hj.
  unfold String.le, String.leb.
  rewrite frame_key_compare by lia.
  apply Nat.compare_lt_iff in Hij. by rewrite Hij.
Qed.

(** With fewer than 10 ** 8 frames the keys of a video compare as their
    frame numbers do (the eight-digit zero padding makes the lexicographic
    order of the keys the numeric one), so that a cursor scan of the
    database that holds one video yields its frames in the order of the
    list that [put] was given, each key with the content of its file. *)
Theorem LMDB_scan_in_frame_order (video_key : string) (clip_tmp_dir : directory)
    (frame_files : list frame_entry) :
  Forall (readable clip_tmp_dir) frame_files →
  (N.of_nat (length frame_files) ≤ 10 ^ 8)%N →
  (∀ i j, (i < length frame_files)%nat → (j < length frame_files)%nat →
          String.compare (frame_key video_key i) (frame_key video_key j) = (i ?= j)%nat)
  ∧ by_name (LMDB.put ∅ video_key clip_tmp_dir frame_files).1
    = zip (frame_keys video_key (length frame_files))
          (content clip_tmp_dir <$> frame_files).
Proof.
  intros Hread Hn. split.
  { intros i j Hi Hj. apply frame_key_compare; lia. }
  unfold LMDB.put. rewrite LMDB_put_loop_readable by done. cbn [fst].
  set (db := write_frames (frame_key video_key) clip_tmp_dir 0 frame_files ∅).
  set (L := zip _ _).
  assert (L.*1 = frame_keys video_key (length frame_files)) as Hfst.
  { apply fst_zip. unfold frame_keys. by rewrite !length_fmap, length_seq. }
  assert (map_to_list db ≡ₚ L) as Hperm.
  { apply NoDup_Permutation.
    - apply NoDup_map_to_list.
    - apply (NoDup_fmap_1 fst). rewrite Hfst.
      unfold frame_keys. apply (NoDup_fmap_2 (frame_key video_key)), NoDup_seq.
    - intros [k v]. rewrite elem_of_map_to_list. unfold L.
      rewrite elem_of_lookup_zip_with. split.
      + intros Hk.
        assert (k ∈ dom db) as Hdom by (apply elem_of_dom; eauto).
        unfold db in Hdom.
        rewrite (dom_write_frames (frame_key video_key)), dom_empty_L,
          (left_id_L ∅ (∪)) in Hdom.
        apply elem_of_list_to_set, list_elem_of_fmap in Hdom as (j & -> & Hj).
        apply elem_of_seq in Hj as [_ Hj]. cbn in Hj.
        destruct (lookup_lt_is_Some_2 frame_files j Hj) as [e He].
        pose proof (write_frames_lookup (frame_key video_key) clip_tmp_dir
                      frame_files 0 ∅ j e He) as Hl.
        cbn [Nat.add] in Hl. fold db in Hl. rewrite Hl in Hk. injection Hk as <-.
        exists j, (frame_key video_key j), (content clip_tmp_dir e).
        split; [done|]. split.
        * unfold frame_keys. rewrite list_lookup_fmap, lookup_seq_lt by done. done.
        * by rewrite list_lookup_fmap, He.
      + intros (i & x & y & [= -> ->] & Hx & Hy).
        unfold frame_keys in Hx. rewrite list_lookup_fmap in Hx.
        destruct (seq 0 (length frame_files) !! i) as [i'|] eqn:Hi; [|done].
        apply lookup_seq in Hi as [-> Hi]. injection Hx as <-.
        rewrite list_lookup_fmap in Hy.
        destruct (frame_files !! i) as [e|] eqn:He; [|done]. injection Hy as <-.
        apply (write_frames_lookup (frame_key video_key) clip_tmp_dir
                 frame_files 0 ∅ i e He). }
  unfold by_name. apply StronglySorted_unique_strong with (R := name_le).
  - intros [k1 v1] [k2 v2] H1 H2 Hle1 Hle2. unfold name_le in *. cbn in *.
    assert (k1 = k2) as -> by (by apply (anti_symm String.le)).
    f_equal. rewrite merge_sort_Permutation in H1. rewrite <-Hperm in H2.
    exact (map_to_list_unique db k2 v1 v2 H1 H2).
  - apply StronglySorted_merge_sort; apply _.
  - apply StronglySorted_zip_keys. by apply frame_keys_sorted.
  - by rewrite merge_sort_Permutation.
Qed.

(** ** The further properties at concrete inputs *)

Lemma FILE_put_copies_witness :
  Forall (readable Toy.five_frames) Toy.ascending
  ∧ ∃ r', FILE.put ∅ "clip" Toy.five_frames Toy.ascending = (r', Ok tt)
      ∧ (∀ i e, Toy.ascending !! i = Some e →
                file_at r' "clip" (FILE.jpg_name i) = Toy.five_frames !! e.2)
      ∧ (∀ name, (∀ i, (i < length Toy.ascending)%nat → name ≠ FILE.jpg_name i) →
                 file_at r' "clip" name = file_at ∅ "clip" name)
      ∧ (∀ d, d ≠ "clip" → r' !! d = (∅ : FILE.root) !! d).
Proof.
  assert (Forall (readable Toy.five_frames) Toy.ascending) as H1 by by_evaluation.
  split; [exact H1|].
  exact (FILE_put_copies ∅ "clip" Toy.five_frames Toy.ascending H1).
Defined.

Lemma PKL_put_stores_list_witness :
  Forall (readable Toy.five_frames) Toy.ascending
  ∧ ∃ r', PKL.put ∅ "clip" Toy.five_frames Toy.ascending = (r', Ok tt)
      ∧ r' !! "clip" = Some (Some (content Toy.five_frames <$> Toy.ascending))
      ∧ (∀ d, d ≠ "clip" → r' !! d = (∅ : PKL.root) !! d).
Proof.
  assert (Forall (readable Toy.five_frames) Toy.ascending) as H1 by by_evaluation.
  split; [exact H1|].
  exact (PKL_put_stores_list ∅ "clip" Toy.five_frames Toy.ascending H1).
Defined.



Lemma LMDB_put_again_overwrites_witness :
  Forall (readable Toy.five_frames) Toy.ascending
  ∧ Forall (readable Toy.five_frames) [Cases.last_frame]
  ∧ ∃ db1 db2,
      LMDB.put ∅ "clip" Toy.five_frames Toy.ascending = (db1, Ok tt)
      ∧ LMDB.put db1 "clip" Toy.five_frames [Cases.last_frame] = (db2, Ok tt)
      ∧ (∀ i e, [Cases.last_frame] !! i = Some e →
                db2 !! frame_key "clip" i = Toy.five_frames !! e.2)
      ∧ (∀ i e, Toy.ascending !! i = Some e → (length [Cases.last_frame] ≤ i)%nat →
                db2 !! frame_key "clip" i = Toy.five_frames !! e.2).
Proof.
  assert (Forall (readable Toy.five_frames) Toy.ascending) as H1 by by_evaluation.
  assert (Forall (readable Toy.five_frames) [Cases.last_frame]) as H2 by by_evaluation.
  split; [exact H1|]. split; [exact H2|].
  exact (LMDB_put_again_overwrites ∅ "clip" Toy.five_frames Toy.five_frames
           Toy.ascending [Cases.last_frame] H1 H2).
Defined.

Lemma PKL_failed_put_breaks_info_witness :
  (∅ : PKL.root) !! "clip" = None
  ∧ Exists (λ e, ¬ readable Toy.five_frames e) [Cases.first_frame; Cases.missing]
  ∧ ∃ r', PKL.put ∅ "clip" Toy.five_frames [Cases.first_frame; Cases.missing]
          = (r', Raise FileNotFoundError)
      ∧ r' !! "clip" = Some None
      ∧ (PKL_info Toy.Image_open r').2 = Raise FileNotFoundError.
Proof.
  assert ((∅ : PKL.root) !! "clip" = None) as H1 by reflexivity.
  assert (Exists (λ e, ¬ readable Toy.five_frames e) [Cases.first_frame; Cases.missing])
    as H2 by by_evaluation.
  split; [exact H1|]. split; [exact H2|].
  exact (PKL_failed_put_breaks_info Toy.Image_open ∅ "clip" Toy.five_frames
           [Cases.first_frame; Cases.missing] H1 H2).
Defined.

Lemma scale_options_after_check_witness :
  parse_args_check Cases.short_256 Toy.default_args = inr tt
  ∧ (scale_options Cases.short_256 = inl InvalidFrameScale
     ↔ short Cases.short_256 ≤ 0 ∧ height Cases.short_256 ≤ 0
       ∧ width Cases.short_256 ≤ 0
       ∧ (short Cases.short_256 < 0 ∨ height Cases.short_256 < 0
          ∨ width Cases.short_256 < 0))
  ∧ (short Cases.short_256 = 0 ∧ height Cases.short_256 = 0
     ∧ width Cases.short_256 = 0 → scale_options Cases.short_256 = inr [])
  ∧ (0 < short Cases.short_256 →
     scale_options Cases.short_256
     = inr ["-vf"; "scale='iw*1.0/min(iw,ih)*" +:+ fmt_d (short Cases.short_256)
                   +:+ "':'ih*1.0/min(iw,ih)*" +:+ fmt_d (short Cases.short_256) +:+ "'"])
  ∧ (0 < height Cases.short_256 ∨ 0 < width Cases.short_256 →
     scale_options Cases.short_256
     = inr ["-vf"; "scale=" +:+ fmt_d (width Cases.short_256) +:+ ":"
                   +:+ fmt_d (height Cases.short_256)]).
Proof.
  assert (parse_args_check Cases.short_256 Toy.default_args = inr tt) as H1
    by (vm_compute; reflexivity).
  split; [exact H1|].
  exact (scale_options_after_check Cases.short_256 Toy.default_args H1).
Defined.

Lemma interval_mode_selects_every_frame_witness :
  Qpositive (interval Toy.every_second) = true
  ∧ sampling_options Toy.every_second [] = inr ["-vsync"; "vfr"]
  ∧ ["-vsync"; "vfr"] = [] ++ ["-vsync"; "vfr"]
  ∧ sample_ids Toy.every_second (Toy.ascending.*1) = Ok None
  ∧ selected Toy.every_second None Toy.ascending = Toy.ascending.
Proof.
  assert (Qpositive (interval Toy.every_second) = true) as H1 by reflexivity.
  assert (sampling_options Toy.every_second [] = inr ["-vsync"; "vfr"]) as H2
    by reflexivity.
  split; [exact H1|]. split; [exact H2|].
  exact (interval_mode_selects_every_frame Toy.every_second [] ["-vsync"; "vfr"]
           Toy.ascending H1 H2).
Defined.

Lemma interval_filters_accumulate_witness :
  Qpositive (interval Toy.every_second) = true
  ∧ (∀ (value : string) (more : list string),
       vf_options_after Toy.every_second Cases.rates ("-vf" :: value :: more)
       = inr ("-vf" :: (value +:+ select_clauses Toy.every_second Cases.rates) :: more))
  ∧ (∀ (vf_options : list string) (zero later : list Q) (r_frame_rate : Q),
       "-vf" ∉ vf_options →
       Cases.rates = zero ++ r_frame_rate :: later →
       Forall (λ r, Qeq_bool r 0 = true) zero →
       Qeq_bool r_frame_rate 0 = false →
       vf_options_after Toy.every_second Cases.rates vf_options
       = inr ["-vf"; select_str Toy.every_second r_frame_rate
                     +:+ select_clauses Toy.every_second later])
  ∧ (∀ vf_options : list string,
       Forall (λ r, Qeq_bool r 0 = true) Cases.rates →
       vf_options_after Toy.every_second Cases.rates vf_options = inr vf_options).
Proof.
  assert (Qpositive (interval Toy.every_second) = true) as H1 by reflexivity.
  split; [exact H1|].
  exact (interval_filters_accumulate Toy.every_second Cases.rates H1).
Defined.

Lemma seen_before_never_printed_witness :
  (∀ f, video_key (Cases.decode f) = path_stem f)
  ∧ ∀ key,
      SeenBefore key
      ∉ stdout (process_videos (list bool) Toy.hash_algorithm Toy.hash_sub
                  Toy.threshold_099
                  (Cases.decode <$> find_videos true (mk_path "videos" "") Cases.listing)
                  (run_start (create DB_LMDB))).1.
Proof.
  assert (∀ f, video_key (Cases.decode f) = path_stem f) as H1
    by (intros f; reflexivity).
  split; [exact H1|].
  exact (seen_before_never_printed (list bool) Toy.hash_algorithm Toy.hash_sub
           Toy.threshold_099 (create DB_LMDB) true (mk_path "videos" "")
           Cases.listing Cases.decode H1).
Defined.

Lemma select_frames_accounting_witness :
  select_frames (list bool) Toy.hash_algorithm Toy.hash_sub
    Toy.threshold_099 Toy.five_frames Toy.ascending = Ok Cases.filtered
  ∧ ∃ samples kept,
      sample_ids Toy.threshold_099 (Toy.ascending.*1) = Ok samples
      ∧ total_files Cases.filtered
        = length (selected Toy.threshold_099 samples Toy.ascending)
      ∧ (duplicates Cases.filtered + length (frame_files Cases.filtered)
         = total_files Cases.filtered)%nat
      ∧ Sorted frame_le (frame_files Cases.filtered)
      ∧ frame_files Cases.filtered ≡ₚ kept
      ∧ kept `sublist_of` selected Toy.threshold_099 samples Toy.ascending.
Proof.
  assert (select_frames (list bool) Toy.hash_algorithm Toy.hash_sub
            Toy.threshold_099 Toy.five_frames Toy.ascending = Ok Cases.filtered) as H1
    by (vm_compute; reflexivity).
  split; [exact H1|].
  exact (select_frames_accounting (list bool) Toy.hash_algorithm Toy.hash_sub
           Toy.threshold_099 Toy.five_frames Toy.ascending Cases.filtered H1).
Defined.

Lemma duplicate_filter_guarantee_witness :
  Qpositive (no_duplicates Toy.threshold_099) = true
  ∧ select_frames (list bool) Toy.hash_algorithm Toy.hash_sub
      Toy.threshold_099 Toy.five_frames Toy.ascending = Ok Cases.filtered
  ∧ far_apart Toy.hash_sub (diff_limit Toy.threshold_099) (hashes Cases.filtered)
  ∧ fingerprint (list bool) Toy.hash_algorithm Toy.threshold_099 Toy.five_frames
      <$> frame_files Cases.filtered
    ≡ₚ Some <$> hashes Cases.filtered
  ∧ ∀ samples e,
      sample_ids Toy.threshold_099 (Toy.ascending.*1) = Ok samples →
      e ∈ selected Toy.threshold_099 samples Toy.ascending →
      e ∈ frame_files Cases.filtered
      ∨ ∃ h h2, fingerprint (list bool) Toy.hash_algorithm Toy.threshold_099
                  Toy.five_frames e = Some h
                ∧ h2 ∈ hashes Cases.filtered
                ∧ Toy.hash_sub h h2 ≤ diff_limit Toy.threshold_099.
Proof.
  assert (Qpositive (no_duplicates Toy.threshold_099) = true) as H1 by reflexivity.
  assert (select_frames (list bool) Toy.hash_algorithm Toy.hash_sub
            Toy.threshold_099 Toy.five_frames Toy.ascending = Ok Cases.filtered) as H2
    by (vm_compute; reflexivity).
  split; [exact H1|]. split; [exact H2|].
  exact (duplicate_filter_guarantee (list bool) Toy.hash_algorithm Toy.hash_sub
           Toy.threshold_099 Toy.five_frames Toy.ascending Cases.filtered H1 H2).
Defined.



Lemma empty_frame_directory_witness :
  v_entries Cases.empty_video = []
  ∧ skipped Toy.threshold_099 Cases.empty_video = false
  ∧ let out := process_video (list bool) Toy.hash_algorithm Toy.hash_sub
                 Toy.threshold_099 Cases.empty_video (run_start (create DB_PKL)) in
    (0 < num_frame Toy.threshold_099 →
       out.2 = Raise ValueError
       ∧ frame_db out.1 = frame_db (run_start (create DB_PKL))
       ∧ done_videos out.1 = done_videos (run_start (create DB_PKL)))
    ∧ (num_frame Toy.threshold_099 ≤ 0 →
       out.2 = (if Qpositive (no_duplicates Toy.threshold_099)
                then Raise ZeroDivisionError else Ok tt)
       ∧ frame_db out.1
         = (put (frame_db (run_start (create DB_PKL))) (video_key Cases.empty_video)
              (v_dir Cases.empty_video) []).1
       ∧ done_videos out.1
         = {[video_key Cases.empty_video]} ∪ done_videos (run_start (create DB_PKL))).
Proof.
  assert (v_entries Cases.empty_video = []) as H1 by reflexivity.
  assert (skipped Toy.threshold_099 Cases.empty_video = false) as H2 by reflexivity.
  split; [exact H1|]. split; [exact H2|].
  exact (empty_frame_directory (list bool) Toy.hash_algorithm Toy.hash_sub
           Toy.threshold_099 Cases.empty_video (run_start (create DB_PKL)) H1 H2).
Defined.

Lemma run_outcome_witness :
  process_videos (list bool) Toy.hash_algorithm Toy.hash_sub Toy.every_second
    [Toy.clip; Toy.still] (run_start (create DB_LMDB))
  = (Cases.after_run, Ok tt)
  ∧ done_videos Cases.after_run
    = list_to_set (video_key <$> filter (λ v, skipped Toy.every_second v = false)
                                   [Toy.clip; Toy.still])
  ∧ frame_db Cases.after_run
    = foldl (λ db v, (put db (video_key v) (v_dir v)
                        (kept_frames Toy.hash_algorithm Toy.hash_sub
                           Toy.every_second v)).1)
        (create DB_LMDB)
        (filter (λ v, skipped Toy.every_second v = false) [Toy.clip; Toy.still]).
Proof.
  assert (process_videos (list bool) Toy.hash_algorithm Toy.hash_sub Toy.every_second
            [Toy.clip; Toy.still] (run_start (create DB_LMDB))
          = (Cases.after_run, Ok tt)) as H1 by (vm_compute; reflexivity).
  split; [exact H1|].
  exact (run_outcome (list bool) Toy.hash_algorithm Toy.hash_sub Toy.every_second
           [Toy.clip; Toy.still] (create DB_LMDB) Cases.after_run H1).
Defined.

Lemma LMDB_scan_in_frame_order_witness :
  Forall (readable Toy.five_frames) Toy.ascending
  ∧ (N.of_nat (length Toy.ascending) ≤ 10 ^ 8)%N
  ∧ (∀ i j, (i < length Toy.ascending)%nat → (j < length Toy.ascending)%nat →
            String.compare (frame_key "clip" i) (frame_key "clip" j) = (i ?= j)%nat)
  ∧ by_name (LMDB.put ∅ "clip" Toy.five_frames Toy.ascending).1
    = zip (frame_keys "clip" (length Toy.ascending))
          (content Toy.five_frames <$> Toy.ascending).
Proof.
  assert (Forall (readable Toy.five_frames) Toy.ascending) as H1 by by_evaluation.
  assert (N.of_nat (length Toy.ascending) ≤ 10 ^ 8)%N as H2 by by_evaluation.
  split; [exact H1|]. split; [exact H2|].
  exact (LMDB_scan_in_frame_order "clip" Toy.five_frames Toy.ascending H1 H2).
Defined.
